(** * Brew-Distance: weighted edit distance with traceback

    A shallow embedding of [brew_distance/brew_distance.py] (the
    configurable engine: [_best], [_edit_path], [_list_edits], [distance])
    and of [brew_distance/string_distance.py] ([sdist], and the second
    engine [best], [edit_path], [extract_path] in the module
    [string_distance]), followed by the properties of the specification
    proved over it.

    Representation choices.
    - Python values that can reach the functions are [PyVal]: the numbers
      (instances of [numbers.Real]) are [PyInt], an unbounded integer,
      hence [Z], and [PyFloat], a binary64 float with the arithmetic of
      the machine (Rocq's primitive floats); [PyStr] is [str] and
      [PyNone] is [None]; these two stand for the values that are not
      numbers. A [bool] acts as the integer 0 or 1 in every operation used
      here; the other classes registered as [numbers.Real], such as
      [fractions.Fraction], are not represented.
    - A [dict] is a [gmap]; a subscript on a missing key is [KeyError].
    - Exceptions are the left summand of [Exc]; a statement that can raise
      is sequenced with [x <- e ;; k].
    - A [for] loop over [range] is [for_in (range lo hi) body].
    - The functions are given twice: on values, where a dict is what it
      holds, and, in the module [shared], on a heap of objects, where a
      dict is named by a reference and an assignment into it changes the
      heap. The two are proved to agree. *)

From stdpp Require Import gmap strings list.
From Stdlib Require Import ZArith Lia Ascii.
From Stdlib Require PrimFloat FloatOps SpecFloat.

Local Open Scope Z_scope.

(** ** Python values and exceptions *)

Inductive PyVal : Type :=
  | PyInt (n : Z)
  | PyFloat (f : PrimFloat.float)
  | PyStr (s : string)
  | PyNone.

Inductive PyExc : Type :=
  | KeyError
  | TypeError
  | AttributeError
  | IndexError
  | OverflowError
  | BrewDistanceException (msg : string).

#[global] Instance PyExc_eq_dec : EqDecision PyExc.
Proof. solve_decision. Defined.

Definition Exc (A : Type) : Type := (PyExc + A)%type.

Definition ret {A} (a : A) : Exc A := inr a.
Definition raise {A} (e : PyExc) : Exc A := inl e.
Definition bind {A B} (m : Exc A) (k : A → Exc B) : Exc B :=
  match m with
  | inl e => inl e
  | inr a => k a
  end.

Notation "x <- m ;; k" := (bind m (λ x, k))
  (at level 100, m at next level, right associativity).

(** The three messages of [BrewDistanceException] raised by [distance].
    The specification calls them [InputTypeError], [InvalidOutputModeError]
    and [InvalidCostError]. *)
Definition InputTypeError : PyExc :=
  BrewDistanceException "Brew-Distance: non-string input supplied.".
Definition InvalidOutputModeError : PyExc :=
  BrewDistanceException "Brew-Distance: invalid output parameter supplied.".
Definition InvalidCostError : PyExc :=
  BrewDistanceException "Brew-Distance: invalid cost parameter supplied.".

(** *** Integers and floats together

    The float nearest to an integer, ties to the even one: what Python
    computes when an [int] meets a [float] in an addition. An integer that
    rounds beyond the largest float raises [OverflowError]. *)
Definition nearest_float (z : Z) : PrimFloat.float :=
  FloatOps.SF2Prim (SpecFloat.binary_normalize FloatOps.prec FloatOps.emax z 0 false).

Definition float_of_int (z : Z) : Exc PrimFloat.float :=
  let f := nearest_float z in
  if PrimFloat.is_infinity f then raise OverflowError else ret f.

(** An [int] and a [float] are compared by their exact values. [None] when
    the float is not a number. *)
Definition compare_int_float (z : Z) (f : PrimFloat.float) : option comparison :=
  match FloatOps.Prim2SF f with
  | SpecFloat.S754_nan => None
  | SpecFloat.S754_zero _ => Some (z ?= 0)
  | SpecFloat.S754_infinity negative => Some (if negative then Gt else Lt)
  | SpecFloat.S754_finite negative m e =>
    let v := if negative then Z.neg m else Z.pos m in
    if 0 <=? e then Some (z ?= v * 2 ^ e) else Some (z * 2 ^ (- e) ?= v)
  end.

(** [a + b] *)
Definition py_add (a b : PyVal) : Exc PyVal :=
  match a, b with
  | PyInt x, PyInt y => ret (PyInt (x + y))
  | PyFloat x, PyFloat y => ret (PyFloat (PrimFloat.add x y))
  | PyInt x, PyFloat y => x' <- float_of_int x ;; ret (PyFloat (PrimFloat.add x' y))
  | PyFloat x, PyInt y => y' <- float_of_int y ;; ret (PyFloat (PrimFloat.add x y'))
  | PyStr x, PyStr y => ret (PyStr (x +:+ y))
  | _, _ => raise TypeError
  end.

(** [a < b] *)
Definition py_lt (a b : PyVal) : Exc bool :=
  match a, b with
  | PyInt x, PyInt y => ret (x <? y)
  | PyFloat x, PyFloat y => ret (PrimFloat.ltb x y)
  | PyInt x, PyFloat y =>
    ret (match compare_int_float x y with Some Lt => true | _ => false end)
  | PyFloat x, PyInt y =>
    ret (match compare_int_float y x with Some Gt => true | _ => false end)
  | PyStr x, PyStr y => ret (String.ltb x y)
  | _, _ => raise TypeError
  end.

(** [a == b] *)
Definition py_eq (a b : PyVal) : bool :=
  match a, b with
  | PyInt x, PyInt y => x =? y
  | PyFloat x, PyFloat y => PrimFloat.eqb x y
  | PyInt x, PyFloat y | PyFloat y, PyInt x =>
    match compare_int_float x y with Some Eq => true | _ => false end
  | PyStr x, PyStr y => String.eqb x y
  | PyNone, PyNone => true
  | _, _ => false
  end.

(** truth value of [a] in a condition *)
Definition py_truthy (a : PyVal) : bool :=
  match a with
  | PyInt x => negb (x =? 0)
  | PyFloat x => negb (PrimFloat.eqb x PrimFloat.zero)
  | PyStr s => negb (String.eqb s "")
  | PyNone => false
  end.

(** [isinstance(a, numbers.Real)] *)
Definition is_real (a : PyVal) : bool :=
  match a with PyInt _ | PyFloat _ => true | _ => false end.

(** [isinstance(a, str)] *)
Definition is_str (a : PyVal) : bool :=
  match a with PyStr _ => true | _ => false end.

(** [d[k]] on a dict *)
Definition getitem `{Countable K} {V} (d : gmap K V) (k : K) : Exc V :=
  match d !! k with
  | Some v => ret v
  | None => raise KeyError
  end.

(** [s[i]] on a string *)
Definition str_index (s : string) (i : nat) : Exc ascii :=
  match String.get i s with
  | Some c => ret c
  | None => raise IndexError
  end.

(** [range(lo, hi)] and the [for] loop over a list of indices. *)
Definition range (lo hi : nat) : list nat := seq lo (hi - lo).

Fixpoint for_in {A S : Type} (xs : list A) (body : A → S → Exc S) (st : S)
  : Exc S :=
  match xs with
  | [] => ret st
  | x :: xs' => st' <- body x st ;; for_in xs' body st'
  end.

(** ** The data model of [brew_distance.py] *)

Inductive Move : Type := MATCH | INS | DEL | SUBST | INITIAL.

#[global] Instance Move_eq_dec : EqDecision Move.
Proof. solve_decision. Defined.

(** The values of the enumeration, [MATCH = 0] to [INITIAL = 4]. *)
Definition Move_value (m : Move) : nat :=
  match m with MATCH => 0 | INS => 1 | DEL => 2 | SUBST => 3 | INITIAL => 4 end.

Definition Move_of_value (n : nat) : option Move :=
  match n with
  | 0 => Some MATCH | 1 => Some INS | 2 => Some DEL | 3 => Some SUBST
  | 4 => Some INITIAL | _ => None
  end%nat.

#[global] Instance Move_countable : Countable Move.
Proof.
  apply (inj_countable Move_value Move_of_value). by intros [].
Defined.

(** [class Traceback(NamedTuple)]: cost, move, traceback. *)
#[warnings="-register-all"] Inductive Traceback : Type :=
  mkTraceback {
    tb_cost : PyVal;
    tb_move : Move;
    tb_traceback : option Traceback
  }.

(** [t.cost] where [t] is an [Optional[Traceback]]. *)
Definition cost_attr (t : option Traceback) : Exc PyVal :=
  match t with
  | Some tb => ret (tb_cost tb)
  | None => raise AttributeError
  end.

(** ** [_best] *)

Definition _best (sub_move ins_move del_move : Traceback) : Exc Traceback :=
  let '(mkTraceback increment1 move1 traceback1) := sub_move in
  c1 <- cost_attr traceback1 ;;
  cost_with_sub <- py_add increment1 c1 ;;
  let '(mkTraceback increment2 move2 traceback2) := ins_move in
  c2 <- cost_attr traceback2 ;;
  cost_with_ins <- py_add increment2 c2 ;;
  let '(mkTraceback increment3 move3 traceback3) := del_move in
  c3 <- cost_attr traceback3 ;;
  cost_with_del <- py_add increment3 c3 ;;
  let '(best_cost, move, traceback) := (cost_with_sub, move1, traceback1) in
  lt_ins <- py_lt cost_with_ins best_cost ;;
  let '(best_cost, move, traceback) :=
    if lt_ins : bool then (cost_with_ins, move2, traceback2)
    else (best_cost, move, traceback) in
  lt_del <- py_lt cost_with_del best_cost ;;
  let '(best_cost, move, traceback) :=
    if lt_del : bool then (cost_with_del, move3, traceback3)
    else (best_cost, move, traceback) in
  c <- cost_attr traceback ;;
  let move := if py_eq best_cost c then MATCH else move in
  ret (mkTraceback best_cost move traceback).

(** ** [_edit_path] *)

Abbreviation CostDict := (gmap Move PyVal).
Abbreviation Distances := (gmap (nat * nat) Traceback).

(** The body of the first loop (deletions, column 0). *)
Definition del_body (del_cost : PyVal) (i : nat) (distances : Distances)
  : Exc Distances :=
  prev <- getitem distances (i, 0%nat) ;;
  let so_far := tb_cost prev in
  c <- py_add so_far del_cost ;;
  prev' <- getitem distances (i, 0%nat) ;;
  ret (<[(i + 1, 0)%nat := mkTraceback c DEL (Some prev')]> distances).

(** The body of the second loop (insertions, row 0). *)
Definition ins_body (ins_cost : PyVal) (j : nat) (distances : Distances)
  : Exc Distances :=
  prev <- getitem distances (0%nat, j) ;;
  let so_far := tb_cost prev in
  c <- py_add so_far ins_cost ;;
  prev' <- getitem distances (0%nat, j) ;;
  ret (<[(0, j + 1)%nat := mkTraceback c INS (Some prev')]> distances).

(** The body of the inner loop (interior cells). *)
Definition cell_body (string1 string2 : string)
    (match_cost ins_cost del_cost subst_cost : PyVal)
    (i j : nat) (distances : Distances) : Exc Distances :=
  a <- str_index string1 i ;;
  b <- str_index string2 j ;;
  let subst := if bool_decide (a = b) then match_cost else subst_cost in
  diag <- getitem distances (i, j) ;;
  left <- getitem distances (i + 1, j)%nat ;;
  up <- getitem distances (i, j + 1)%nat ;;
  cell <- _best
    (mkTraceback subst (if py_truthy subst then SUBST else MATCH) (Some diag))
    (mkTraceback ins_cost INS (Some left))
    (mkTraceback del_cost DEL (Some up)) ;;
  ret (<[(i + 1, j + 1)%nat := cell]> distances).

(** Everything of [_edit_path] before its [return]: the filled dict. *)
Definition _edit_path_matrix (string1 string2 : string) (cost : CostDict)
  : Exc Distances :=
  let len1 := String.length string1 in
  let len2 := String.length string2 in
  match_cost <- getitem cost MATCH ;;
  ins_cost <- getitem cost INS ;;
  del_cost <- getitem cost DEL ;;
  subst_cost <- getitem cost SUBST ;;
  initial_cost <- getitem cost INITIAL ;;
  let distances : Distances := ∅ in
  let distances := <[(0, 0)%nat := mkTraceback initial_cost INITIAL None]> distances in
  distances <- for_in (range 0 len1) (del_body del_cost) distances ;;
  distances <- for_in (range 0 len2) (ins_body ins_cost) distances ;;
  for_in (range 0 len1)
    (λ i, for_in (range 0 len2)
       (cell_body string1 string2 match_cost ins_cost del_cost subst_cost i))
    distances.

Definition _edit_path (string1 string2 : string) (cost : CostDict)
  : Exc Traceback :=
  distances <- _edit_path_matrix string1 string2 cost ;;
  getitem distances (String.length string1, String.length string2).

(** ** [_list_edits] *)

(** The [while] loop: [just_edits.insert(0, raw_edits.move)] while
    [raw_edits.traceback is not None]. *)
Fixpoint _list_edits_loop (raw_edits : Traceback) (just_edits : list Move)
  : list Move :=
  match raw_edits with
  | mkTraceback _ m (Some parent) => _list_edits_loop parent (m :: just_edits)
  | mkTraceback _ _ None => just_edits
  end.

Definition _list_edits (raw_edits : Traceback) : list Move :=
  _list_edits_loop raw_edits [].

(** ** [distance] *)

(** What [distance] returns: a number, a list, or a pair. *)
Inductive Ret : Type :=
  | RetNum (d : PyVal)
  | RetEdits (edits : list Move)
  | RetBoth (d : PyVal) (edits : list Move).

(** The default value of the parameter [cost]. *)
Definition default_cost : CostDict :=
  {[ MATCH := PyInt 0; INS := PyInt 1; DEL := PyInt 1; SUBST := PyInt 1;
     INITIAL := PyInt 0 ]}.

(** The condition of the [elif]: a chain of [or], evaluated left to right
    and stopping at the first operand that is true. *)
Definition cost_not_real (cost : CostDict) : Exc bool :=
  m <- getitem cost MATCH ;;
  if negb (is_real m) then ret true else
  i <- getitem cost INS ;;
  if negb (is_real i) then ret true else
  d <- getitem cost DEL ;;
  if negb (is_real d) then ret true else
  s <- getitem cost SUBST ;;
  ret (negb (is_real s)).

Definition distance (string1 string2 output : PyVal) (cost : CostDict)
  : Exc Ret :=
  match string1, string2 with
  | PyStr s1, PyStr s2 =>
    if negb (py_eq output (PyStr "both")) && negb (py_eq output (PyStr "distance"))
       && negb (py_eq output (PyStr "edits"))
    then raise InvalidOutputModeError
    else
      bad <- cost_not_real cost ;;
      if bad : bool then raise InvalidCostError
      else
        results <- _edit_path s1 s2 cost ;;
        if py_eq output (PyStr "distance") then ret (RetNum (tb_cost results))
        else if py_eq output (PyStr "edits") then ret (RetEdits (_list_edits results))
        else ret (RetBoth (tb_cost results) (_list_edits results))
  | _, _ => raise InputTypeError
  end.

(** ** [sdist] of [string_distance.py]

    [sdist] computes with the floats [0.0] and [1.0]; every value it
    stores is a sum of at most [len(string1) + len(string2)] ones, which a
    float represents exactly, so the model keeps the integer. *)

Abbreviation SDict := (gmap (nat * nat) Z).

Definition sdist_del_body (delCost : Z) (i : nat) (d : SDict) : Exc SDict :=
  prev <- getitem d (i, 0%nat) ;;
  ret (<[(i + 1, 0)%nat := prev + delCost]> d).

Definition sdist_ins_body (insCost : Z) (j : nat) (d : SDict) : Exc SDict :=
  prev <- getitem d (0%nat, j) ;;
  ret (<[(0, j + 1)%nat := prev + insCost]> d).

Definition sdist_cell_body (string1 string2 : string)
    (insCost delCost substCost : Z) (i j : nat) (d : SDict) : Exc SDict :=
  a <- str_index string1 i ;;
  b <- str_index string2 j ;;
  let subst := if bool_decide (a = b) then 0 else substCost in
  diag <- getitem d (i, j) ;;
  left <- getitem d (i + 1, j)%nat ;;
  up <- getitem d (i, j + 1)%nat ;;
  ret (<[(i + 1, j + 1)%nat :=
           Z.min (Z.min (diag + subst) (left + insCost)) (up + delCost)]> d).

Definition sdist (string1 string2 : string) : Exc Z :=
  let delCost := 1 in
  let insCost := 1 in
  let substCost := 1 in
  let m := String.length string1 in
  let n := String.length string2 in
  let d : SDict := ∅ in
  let d := <[(0, 0)%nat := 0]> d in
  d <- for_in (range 0 m) (sdist_del_body delCost) d ;;
  d <- for_in (range 0 n) (sdist_ins_body insCost) d ;;
  d <- for_in (range 0 m)
         (λ i, for_in (range 0 n)
            (sdist_cell_body string1 string2 insCost delCost substCost i)) d ;;
  getitem d (m, n).

(** ** Running the model on the examples of the repository *)

Example distance_foo_fou :
  distance (PyStr "foo") (PyStr "fou") (PyStr "both") default_cost
  = inr (RetBoth (PyInt 1) [MATCH; MATCH; SUBST]).
Proof. vm_compute. reflexivity. Qed.

Example distance_foo_foot :
  distance (PyStr "foo") (PyStr "foot") (PyStr "both") default_cost
  = inr (RetBoth (PyInt 1) [MATCH; MATCH; MATCH; INS]).
Proof. vm_compute. reflexivity. Qed.

Example distance_foot_foo :
  distance (PyStr "foot") (PyStr "foo") (PyStr "both") default_cost
  = inr (RetBoth (PyInt 1) [MATCH; MATCH; MATCH; DEL]).
Proof. vm_compute. reflexivity. Qed.

Example sdist_foolish_fools : sdist "foolish" "fools" = inr 2.
Proof. vm_compute. reflexivity. Qed.

(** ** Reasoning about [for] loops and about the filling of a matrix *)

Lemma bind_inr {A B} (m : Exc A) (k : A → Exc B) a :
  m = inr a → bind m k = k a.
Proof. by intros ->. Qed.

Lemma getitem_Some `{Countable K} {V} (d : gmap K V) k v :
  d !! k = Some v → getitem d k = inr v.
Proof. unfold getitem. by intros ->. Qed.


(** A loop over [seq lo len] that keeps an invariant indexed by the loop
    counter runs to its end and establishes the invariant there. *)
Lemma for_in_seq_inv {S : Type} (P : nat → S → Prop) (body : nat → S → Exc S)
    (len lo : nat) (st : S) :
  P lo st →
  (∀ k st0, (lo ≤ k < lo + len)%nat → P k st0 →
     ∃ st1, body k st0 = inr st1 ∧ P (Datatypes.S k) st1) →
  ∃ st', for_in (seq lo len) body st = inr st' ∧ P (lo + len)%nat st'.
Proof.
  revert lo st. induction len as [|len IH]; intros lo st H0 Hstep.
  - exists st. rewrite Nat.add_0_r. done.
  - destruct (Hstep lo st) as (st1 & Hb & H1); [lia | done |].
    destruct (IH (Datatypes.S lo) st1) as (st' & Hrun & Hend).
    + done.
    + intros k st0 Hk. apply Hstep. lia.
    + exists st'. simpl. rewrite Hb. simpl. split; [done|].
      by replace (lo + Datatypes.S len)%nat with (Datatypes.S lo + len)%nat by lia.
Qed.

Lemma for_range_inv {S : Type} (P : nat → S → Prop) (body : nat → S → Exc S)
    (n : nat) (st : S) :
  P 0%nat st →
  (∀ k st0, (k < n)%nat → P k st0 →
     ∃ st1, body k st0 = inr st1 ∧ P (Datatypes.S k) st1) →
  ∃ st', for_in (range 0 n) body st = inr st' ∧ P n st'.
Proof.
  intros H0 Hstep. unfold range. rewrite Nat.sub_0_r.
  apply (for_in_seq_inv P body n 0 st H0).
  intros k st0 Hk. apply Hstep. lia.
Qed.

Section fill.
(** Both [_edit_path] and [sdist] fill their dict in the same order:
    column 0, row 0, then the interior row by row. When each loop body
    writes the value [cell] prescribes for the key it assigns, given that
    the keys it reads hold the prescribed values, the three loops end with
    every key of the grid holding its prescribed value. *)
Context {V : Type}.
Variable cell : nat → nat → V.
Variables len1 len2 : nat.
Variable body_del body_ins : nat → gmap (nat * nat) V → Exc (gmap (nat * nat) V).
Variable body_cell : nat → nat → gmap (nat * nat) V → Exc (gmap (nat * nat) V).

Hypothesis body_del_spec : ∀ i (d : gmap (nat * nat) V),
  (i < len1)%nat → d !! (i, 0%nat) = Some (cell i 0) →
  body_del i d = inr (<[(i + 1, 0)%nat := cell (i + 1) 0]> d).
Hypothesis body_ins_spec : ∀ j (d : gmap (nat * nat) V),
  (j < len2)%nat → d !! (0%nat, j) = Some (cell 0 j) →
  body_ins j d = inr (<[(0, j + 1)%nat := cell 0 (j + 1)]> d).
Hypothesis body_cell_spec : ∀ i j (d : gmap (nat * nat) V),
  (i < len1)%nat → (j < len2)%nat →
  d !! (i, j) = Some (cell i j) →
  d !! ((i + 1)%nat, j) = Some (cell (i + 1) j) →
  d !! (i, (j + 1)%nat) = Some (cell i (j + 1)) →
  body_cell i j d = inr (<[(i + 1, j + 1)%nat := cell (i + 1) (j + 1)]> d).

Definition filled (d : gmap (nat * nat) V) : Prop :=
  ∀ i j, (i ≤ len1)%nat → (j ≤ len2)%nat → d !! (i, j) = Some (cell i j).

Lemma fill_column :
  ∃ d, for_in (range 0 len1) body_del (<[(0, 0)%nat := cell 0 0]> ∅) = inr d
       ∧ ∀ i, (i ≤ len1)%nat → d !! (i, 0%nat) = Some (cell i 0).
Proof.
  apply (for_range_inv
    (λ k d, ∀ i, (i ≤ k)%nat → d !! (i, 0%nat) = Some (cell i 0))).
  - intros i Hi. replace i with 0%nat by lia. apply lookup_insert_eq.
  - intros k d Hk Hinv. eexists. split.
    + apply body_del_spec; [done|]. apply Hinv. lia.
    + intros i Hi. rewrite Nat.add_1_r.
      destruct (decide (i = Datatypes.S k)) as [->|Hne].
      * apply lookup_insert_eq.
      * rewrite lookup_insert_ne by congruence. apply Hinv. lia.
Qed.

Lemma fill_row (d0 : gmap (nat * nat) V) :
  (∀ i, (i ≤ len1)%nat → d0 !! (i, 0%nat) = Some (cell i 0)) →
  ∃ d, for_in (range 0 len2) body_ins d0 = inr d
       ∧ ∀ i j, (i ≤ len1)%nat → (j ≤ len2)%nat → (i = 0 ∨ j = 0)%nat →
           d !! (i, j) = Some (cell i j).
Proof.
  intros Hcol.
  destruct (for_range_inv
    (λ k d, (∀ i, (i ≤ len1)%nat → d !! (i, 0%nat) = Some (cell i 0))
            ∧ ∀ j, (j ≤ k)%nat → d !! (0%nat, j) = Some (cell 0 j))
    body_ins len2 d0) as (d & Hrun & Hc & Hr).
  - split; [done|]. intros j Hj. replace j with 0%nat by lia.
    apply Hcol. lia.
  - intros k d Hk [Hc' Hr']. eexists. split.
    + apply body_ins_spec; [done|]. apply Hr'. lia.
    + rewrite Nat.add_1_r. split.
      * intros i Hi. rewrite lookup_insert_ne by congruence. by apply Hc'.
      * intros j Hj. destruct (decide (j = Datatypes.S k)) as [->|Hne].
        -- apply lookup_insert_eq.
        -- rewrite lookup_insert_ne by congruence. apply Hr'. lia.
  - exists d. split; [done|]. intros i j Hi Hj [->| ->]; [by apply Hr | by apply Hc].
Qed.

Lemma fill_inner (k : nat) (d0 : gmap (nat * nat) V) :
  (k < len1)%nat →
  (∀ i j, (i ≤ len1)%nat → (j ≤ len2)%nat → (i ≤ k ∨ j = 0)%nat →
     d0 !! (i, j) = Some (cell i j)) →
  ∃ d, for_in (range 0 len2) (body_cell k) d0 = inr d
       ∧ ∀ i j, (i ≤ len1)%nat → (j ≤ len2)%nat →
           (i ≤ Datatypes.S k ∨ j = 0)%nat → d !! (i, j) = Some (cell i j).
Proof.
  intros Hk H0.
  destruct (for_range_inv
    (λ l d, ∀ i j, (i ≤ len1)%nat → (j ≤ len2)%nat →
       (i ≤ k ∨ j = 0 ∨ (i = Datatypes.S k ∧ j ≤ l))%nat →
       d !! (i, j) = Some (cell i j))
    (body_cell k) len2 d0) as (d & Hrun & Hend).
  - intros i j Hi Hj Hc. apply H0; [done..|]. lia.
  - intros l d Hl Hinv. eexists. split.
    + apply body_cell_spec; [done..| | |]; apply Hinv; lia.
    + intros i j Hi Hj Hc. rewrite !Nat.add_1_r.
      destruct (decide ((i, j) = (Datatypes.S k, Datatypes.S l))) as [[= -> ->]|Hne].
      * apply lookup_insert_eq.
      * rewrite lookup_insert_ne by congruence. apply Hinv; [done..|].
        destruct (decide (i = Datatypes.S k)); [|lia].
        destruct (decide (j = Datatypes.S l)); [congruence|lia].
  - exists d. split; [done|]. intros i j Hi Hj Hc. apply Hend; [done..|]. lia.
Qed.

Lemma fill_interior (d0 : gmap (nat * nat) V) :
  (∀ i j, (i ≤ len1)%nat → (j ≤ len2)%nat → (i = 0 ∨ j = 0)%nat →
     d0 !! (i, j) = Some (cell i j)) →
  ∃ d, for_in (range 0 len1)
         (λ i, for_in (range 0 len2) (body_cell i)) d0 = inr d
       ∧ filled d.
Proof.
  intros H0.
  destruct (for_range_inv
    (λ k d, ∀ i j, (i ≤ len1)%nat → (j ≤ len2)%nat → (i ≤ k ∨ j = 0)%nat →
       d !! (i, j) = Some (cell i j))
    (λ i, for_in (range 0 len2) (body_cell i)) len1 d0) as (d & Hrun & Hend).
  - intros i j Hi Hj Hc. apply H0; [done..|]. lia.
  - intros k d Hk Hinv. by apply fill_inner.
  - exists d. split; [done|]. intros i j Hi Hj. apply Hend; [done..|]. lia.
Qed.

Lemma fill_spec :
  ∃ dc dr d,
    for_in (range 0 len1) body_del (<[(0, 0)%nat := cell 0 0]> ∅) = inr dc
    ∧ for_in (range 0 len2) body_ins dc = inr dr
    ∧ for_in (range 0 len1) (λ i, for_in (range 0 len2) (body_cell i)) dr = inr d
    ∧ filled d.
Proof.
  destruct fill_column as (dc & Hc & Hcol).
  destruct (fill_row dc Hcol) as (dr & Hr & Hrow).
  destruct (fill_interior dr Hrow) as (d & Hd & Hfill).
  by exists dc, dr, d.
Qed.
End fill.

(** ** Strings as lists of characters *)

Definition chars (s : string) : list ascii := String.list_ascii_of_string s.

(** The first [i] characters of [s], last character first. *)
Definition rprefix (s : string) (i : nat) : list ascii := rev (take i (chars s)).

Lemma chars_length s : length (chars s) = String.length s.
Proof. induction s as [|a s IH]; simpl; [done | by rewrite IH]. Qed.

Lemma chars_lookup s i : chars s !! i = String.get i s.
Proof.
  revert i. induction s as [|a s IH]; intros [|i]; simpl; try done.
Qed.

Lemma rprefix_0 s : rprefix s 0 = [].
Proof. done. Qed.

Lemma rprefix_all s : rprefix s (String.length s) = rev (chars s).
Proof. unfold rprefix. by rewrite <- chars_length, firstn_all. Qed.

Lemma rprefix_succ s i :
  (i < String.length s)%nat →
  ∃ a, str_index s i = inr a ∧ rprefix s (i + 1) = a :: rprefix s i.
Proof.
  intros Hi. rewrite <- chars_length in Hi.
  destruct (lookup_lt_is_Some_2 _ _ Hi) as [a Ha].
  exists a. split.
  - unfold str_index. by rewrite <- chars_lookup, Ha.
  - unfold rprefix. rewrite Nat.add_1_r, (take_S_r _ _ _ Ha). apply rev_unit.
Qed.

(** ** The matrix in closed form

    With integer costs the dict built by [_edit_path] has a closed form:
    the cell at [(i, j)] depends only on the first [i] characters of
    [string1] and the first [j] characters of [string2]. [cellT] computes
    it by recursion on these prefixes, read from their last character. *)

Definition zcost (tb : Traceback) : Z :=
  match tb_cost tb with PyInt z => z | _ => 0 end.

(** What [_best] returns on candidates with integer increments whose
    predecessors have integer costs. *)
Definition bestT (inc1 : Z) (m1 : Move) (t1 : Traceback)
    (inc2 : Z) (m2 : Move) (t2 : Traceback)
    (inc3 : Z) (m3 : Move) (t3 : Traceback) : Traceback :=
  let cost_with_sub := inc1 + zcost t1 in
  let cost_with_ins := inc2 + zcost t2 in
  let cost_with_del := inc3 + zcost t3 in
  let '(best_cost, move, traceback) :=
    if cost_with_ins <? cost_with_sub then (cost_with_ins, m2, t2)
    else (cost_with_sub, m1, t1) in
  let '(best_cost, move, traceback) :=
    if cost_with_del <? best_cost then (cost_with_del, m3, t3)
    else (best_cost, move, traceback) in
  mkTraceback (PyInt best_cost)
    (if best_cost =? zcost traceback then MATCH else move) (Some traceback).

Lemma _best_int inc1 m1 t1 inc2 m2 t2 inc3 m3 t3 :
  tb_cost t1 = PyInt (zcost t1) →
  tb_cost t2 = PyInt (zcost t2) →
  tb_cost t3 = PyInt (zcost t3) →
  _best (mkTraceback (PyInt inc1) m1 (Some t1))
        (mkTraceback (PyInt inc2) m2 (Some t2))
        (mkTraceback (PyInt inc3) m3 (Some t3))
  = inr (bestT inc1 m1 t1 inc2 m2 t2 inc3 m3 t3).
Proof.
  intros H1 H2 H3. unfold _best, bestT. simpl. rewrite H1, H2, H3. simpl.
  destruct (inc2 + zcost t2 <? inc1 + zcost t1); simpl.
  - destruct (inc3 + zcost t3 <? inc2 + zcost t2); simpl.
    + by rewrite H3.
    + by rewrite H2.
  - destruct (inc3 + zcost t3 <? inc1 + zcost t1); simpl.
    + by rewrite H3.
    + by rewrite H1.
Qed.

Lemma bestT_cost_int inc1 m1 t1 inc2 m2 t2 inc3 m3 t3 :
  tb_cost (bestT inc1 m1 t1 inc2 m2 t2 inc3 m3 t3)
  = PyInt (zcost (bestT inc1 m1 t1 inc2 m2 t2 inc3 m3 t3)).
Proof.
  unfold bestT.
  destruct (inc2 + zcost t2 <? inc1 + zcost t1);
    [destruct (inc3 + zcost t3 <? inc2 + zcost t2)
    | destruct (inc3 + zcost t3 <? inc1 + zcost t1)]; done.
Qed.

Lemma bestT_zcost inc1 m1 t1 inc2 m2 t2 inc3 m3 t3 :
  zcost (bestT inc1 m1 t1 inc2 m2 t2 inc3 m3 t3)
  = Z.min (Z.min (inc1 + zcost t1) (inc2 + zcost t2)) (inc3 + zcost t3).
Proof.
  unfold bestT.
  destruct (Z.ltb_spec (inc2 + zcost t2) (inc1 + zcost t1));
    [destruct (Z.ltb_spec (inc3 + zcost t3) (inc2 + zcost t2))
    | destruct (Z.ltb_spec (inc3 + zcost t3) (inc1 + zcost t1))];
    unfold zcost at 1; simpl; lia.
Qed.

Section engine.
(** The five costs: match, insert, delete, substitute, initial. *)
Variables cm ci cd cs c0 : Z.

Definition origin : Traceback := mkTraceback (PyInt c0) INITIAL None.

Definition subst_of (a b : ascii) : Z := if bool_decide (a = b) then cm else cs.

Definition diag_move (subst : Z) : Move :=
  if py_truthy (PyInt subst) then SUBST else MATCH.

Fixpoint rowT (t : list ascii) : Traceback :=
  match t with
  | [] => origin
  | _ :: t' => mkTraceback (PyInt (zcost (rowT t') + ci)) INS (Some (rowT t'))
  end.

Fixpoint cellT (s : list ascii) : list ascii → Traceback :=
  match s with
  | [] => rowT
  | a :: s' =>
    fix inner (t : list ascii) : Traceback :=
      match t with
      | [] => mkTraceback (PyInt (zcost (cellT s' []) + cd)) DEL (Some (cellT s' []))
      | b :: t' =>
        bestT (subst_of a b) (diag_move (subst_of a b)) (cellT s' t')
              ci INS (inner t')
              cd DEL (cellT s' t)
      end
  end.

Lemma cellT_nil_cons b t :
  cellT [] (b :: t)
  = mkTraceback (PyInt (zcost (cellT [] t) + ci)) INS (Some (cellT [] t)).
Proof. done. Qed.

Lemma cellT_cons_nil a s :
  cellT (a :: s) []
  = mkTraceback (PyInt (zcost (cellT s []) + cd)) DEL (Some (cellT s [])).
Proof. done. Qed.

Lemma cellT_cons_cons a s b t :
  cellT (a :: s) (b :: t)
  = bestT (subst_of a b) (diag_move (subst_of a b)) (cellT s t)
          ci INS (cellT (a :: s) t)
          cd DEL (cellT s (b :: t)).
Proof. done. Qed.

Lemma cellT_cost_int s t : tb_cost (cellT s t) = PyInt (zcost (cellT s t)).
Proof.
  destruct s as [|a s], t as [|b t]; try done.
  rewrite cellT_cons_cons. apply bestT_cost_int.
Qed.

(** The integer in the cell. *)
Definition D (s t : list ascii) : Z := zcost (cellT s t).

Lemma D_nil_nil : D [] [] = c0.
Proof. done. Qed.

Lemma D_nil_cons b t : D [] (b :: t) = D [] t + ci.
Proof. done. Qed.

Lemma D_cons_nil a s : D (a :: s) [] = D s [] + cd.
Proof. done. Qed.

Lemma D_cons_cons a s b t :
  D (a :: s) (b :: t)
  = Z.min (Z.min (subst_of a b + D s t) (ci + D (a :: s) t)) (cd + D s (b :: t)).
Proof. unfold D. rewrite cellT_cons_cons. apply bestT_zcost. Qed.

(** *** The dict built by [_edit_path] holds [cellT] *)

Variable cost : CostDict.
Hypothesis cost_match : cost !! MATCH = Some (PyInt cm).
Hypothesis cost_ins : cost !! INS = Some (PyInt ci).
Hypothesis cost_del : cost !! DEL = Some (PyInt cd).
Hypothesis cost_subst : cost !! SUBST = Some (PyInt cs).
Hypothesis cost_initial : cost !! INITIAL = Some (PyInt c0).

Variables string1 string2 : string.

Definition cell_at (i j : nat) : Traceback :=
  cellT (rprefix string1 i) (rprefix string2 j).

Lemma del_body_spec (i : nat) (d : Distances) :
  (i < String.length string1)%nat → d !! (i, 0%nat) = Some (cell_at i 0) →
  del_body (PyInt cd) i d = inr (<[(i + 1, 0)%nat := cell_at (i + 1) 0]> d).
Proof.
  intros Hi Hd. unfold del_body, cell_at.
  destruct (rprefix_succ _ _ Hi) as (a & _ & ->).
  rewrite (getitem_Some _ _ _ Hd). simpl.
  unfold cell_at. rewrite cellT_cost_int. done.
Qed.

Lemma ins_body_spec (j : nat) (d : Distances) :
  (j < String.length string2)%nat → d !! (0%nat, j) = Some (cell_at 0 j) →
  ins_body (PyInt ci) j d = inr (<[(0, j + 1)%nat := cell_at 0 (j + 1)]> d).
Proof.
  intros Hj Hd. unfold ins_body, cell_at.
  destruct (rprefix_succ _ _ Hj) as (b & _ & ->).
  rewrite (getitem_Some _ _ _ Hd). simpl.
  unfold cell_at. rewrite rprefix_0, cellT_cost_int. done.
Qed.

Lemma cell_body_spec (i j : nat) (d : Distances) :
  (i < String.length string1)%nat → (j < String.length string2)%nat →
  d !! (i, j) = Some (cell_at i j) →
  d !! ((i + 1)%nat, j) = Some (cell_at (i + 1) j) →
  d !! (i, (j + 1)%nat) = Some (cell_at i (j + 1)) →
  cell_body string1 string2 (PyInt cm) (PyInt ci) (PyInt cd) (PyInt cs) i j d
  = inr (<[(i + 1, j + 1)%nat := cell_at (i + 1) (j + 1)]> d).
Proof.
  intros Hi Hj Hdiag Hleft Hup. unfold cell_body.
  destruct (rprefix_succ _ _ Hi) as (a & -> & Ha).
  destruct (rprefix_succ _ _ Hj) as (b & -> & Hb). cbn [bind].
  rewrite (getitem_Some _ _ _ Hdiag), (getitem_Some _ _ _ Hleft),
    (getitem_Some _ _ _ Hup). cbn [bind].
  replace (if bool_decide (a = b) then PyInt cm else PyInt cs)
    with (PyInt (subst_of a b)) by (unfold subst_of; by case_bool_decide).
  rewrite _best_int by apply cellT_cost_int. cbn [bind]. unfold ret.
  do 2 f_equal. unfold cell_at. by rewrite Ha, Hb, cellT_cons_cons.
Qed.

Lemma _edit_path_matrix_spec :
  ∃ d, _edit_path_matrix string1 string2 cost = inr d
       ∧ filled cell_at (String.length string1) (String.length string2) d.
Proof.
  destruct (fill_spec cell_at (String.length string1) (String.length string2)
              (del_body (PyInt cd)) (ins_body (PyInt ci))
              (cell_body string1 string2 (PyInt cm) (PyInt ci) (PyInt cd) (PyInt cs))
              del_body_spec ins_body_spec cell_body_spec)
    as (dc & dr & d & Hc & Hr & Hd & Hfill).
  exists d. split; [|done]. unfold _edit_path_matrix.
  rewrite (getitem_Some _ _ _ cost_match), (getitem_Some _ _ _ cost_ins),
    (getitem_Some _ _ _ cost_del), (getitem_Some _ _ _ cost_subst),
    (getitem_Some _ _ _ cost_initial). simpl.
  change (mkTraceback (PyInt c0) INITIAL None) with (cell_at 0 0).
  rewrite Hc. simpl. rewrite Hr. simpl. exact Hd.
Qed.

(** [_edit_path] returns, and returns the closed form of the last cell. *)
Lemma _edit_path_spec :
  _edit_path string1 string2 cost
  = inr (cellT (rev (chars string1)) (rev (chars string2))).
Proof.
  destruct _edit_path_matrix_spec as (d & Hd & Hfill).
  unfold _edit_path. rewrite Hd. simpl.
  rewrite (getitem_Some _ _ _ (Hfill _ _ (Nat.le_refl _) (Nat.le_refl _))).
  unfold cell_at. by rewrite !rprefix_all.
Qed.
End engine.

(** ** Edit scripts

    An edit script for [(s, t)] is a list of moves read from the first
    edit to the last. [MATCH] steps over a character that is the same in
    both strings, [SUBST] steps over a source character and a different
    target character, [INS] steps over a target character, [DEL] over a
    source character. The script must consume both strings. *)

Fixpoint edit_script (es : list Move) (s t : list ascii) : bool :=
  match es, s, t with
  | [], [], [] => true
  | MATCH :: es', a :: s', b :: t' => bool_decide (a = b) && edit_script es' s' t'
  | SUBST :: es', a :: s', b :: t' => negb (bool_decide (a = b)) && edit_script es' s' t'
  | INS :: es', _, b :: t' => edit_script es' s t'
  | DEL :: es', a :: s', _ => edit_script es' s' t
  | _, _, _ => false
  end.

Inductive script : list ascii → list ascii → list Move → Prop :=
  | script_nil : script [] [] []
  | script_match a s t es : script s t es → script (a :: s) (a :: t) (MATCH :: es)
  | script_subst a b s t es :
      a ≠ b → script s t es → script (a :: s) (b :: t) (SUBST :: es)
  | script_ins b s t es : script s t es → script s (b :: t) (INS :: es)
  | script_del a s t es : script s t es → script (a :: s) t (DEL :: es).

#[local] Hint Constructors script : core.

Lemma edit_script_iff es s t : edit_script es s t = true ↔ script s t es.
Proof.
  split.
  - revert s t. induction es as [|m es IH]; intros s t H.
    + destruct s, t; simpl in H; done.
    + destruct m, s as [|a s], t as [|b t]; simpl in H; try done;
        try (apply andb_prop in H as [Hab H]);
        try (apply bool_decide_eq_true in Hab as ->);
        try (apply negb_true_iff in Hab; apply bool_decide_eq_false in Hab);
        auto.
  - induction 1; simpl.
    + done.
    + rewrite IHscript. by rewrite bool_decide_eq_true_2.
    + rewrite IHscript. by rewrite bool_decide_eq_false_2.
    + by destruct s.
    + by destruct t.
Qed.

Lemma script_app s1 t1 es1 s2 t2 es2 :
  script s1 t1 es1 → script s2 t2 es2 → script (s1 ++ s2) (t1 ++ t2) (es1 ++ es2).
Proof. induction 1; intros H2; simpl; auto. Qed.

Lemma script_rev s t es : script s t es → script (rev s) (rev t) (rev es).
Proof.
  induction 1; simpl; auto.
  - apply script_app; auto.
  - apply script_app; auto.
  - rewrite <- (app_nil_r (rev s)). apply script_app; auto.
  - rewrite <- (app_nil_r (rev t)). apply script_app; auto.
Qed.

Lemma script_rev_iff s t es : script (rev s) (rev t) (rev es) ↔ script s t es.
Proof.
  split; [|apply script_rev].
  intros H. apply script_rev in H. by rewrite !rev_involutive in H.
Qed.

(** No script contains the sentinel. *)
Lemma script_no_initial s t es : script s t es → INITIAL ∉ es.
Proof.
  induction 1; [by apply not_elem_of_nil | rewrite not_elem_of_cons; split; done ..].
Qed.

(** Applying an edit sequence to a source string, left to right: [MATCH]
    copies the source character, [INS] adds the next target character,
    [DEL] drops the source character, [SUBST] replaces the source character
    with the next target character. [None] when the sequence asks for a
    character that is not there, contains the sentinel, or leaves source
    characters unread. *)
Fixpoint apply_edits (es : list Move) (source target : list ascii)
  : option (list ascii) :=
  match es with
  | [] => match source with [] => Some [] | _ :: _ => None end
  | MATCH :: es' =>
    match source, target with
    | a :: source', _ :: target' => cons a <$> apply_edits es' source' target'
    | _, _ => None
    end
  | INS :: es' =>
    match target with
    | b :: target' => cons b <$> apply_edits es' source target'
    | [] => None
    end
  | DEL :: es' =>
    match source with
    | _ :: source' => apply_edits es' source' target
    | [] => None
    end
  | SUBST :: es' =>
    match source, target with
    | _ :: source', b :: target' => cons b <$> apply_edits es' source' target'
    | _, _ => None
    end
  | INITIAL :: _ => None
  end.

Lemma script_apply s t es : script s t es → apply_edits es s t = Some t.
Proof. induction 1; simpl; try rewrite IHscript; done. Qed.

(** The cost of a move under a cost dict, and of a script. *)
Definition cost_of (cost : CostDict) (m : Move) : Z :=
  match cost !! m with Some (PyInt z) => z | _ => 0 end.

Definition edits_cost (cost : CostDict) (es : list Move) : Z :=
  foldr (λ m acc, cost_of cost m + acc) 0 es.

Lemma edits_cost_app cost es1 es2 :
  edits_cost cost (es1 ++ es2) = edits_cost cost es1 + edits_cost cost es2.
Proof. induction es1 as [|m es1 IH]; simpl; [done | rewrite IH; lia]. Qed.

Lemma edits_cost_rev cost es : edits_cost cost (rev es) = edits_cost cost es.
Proof.
  induction es as [|m es IH]; simpl; [done|].
  rewrite edits_cost_app, IH. simpl. lia.
Qed.

(** A cost dict that maps the five kinds to the given integers. *)
Definition cost_is (cost : CostDict) (cm ci cd cs c0 : Z) : Prop :=
  cost !! MATCH = Some (PyInt cm) ∧ cost !! INS = Some (PyInt ci)
  ∧ cost !! DEL = Some (PyInt cd) ∧ cost !! SUBST = Some (PyInt cs)
  ∧ cost !! INITIAL = Some (PyInt c0).

Lemma default_cost_is : cost_is default_cost 0 1 1 1 0.
Proof. by repeat split. Qed.

Section minimum.
Variables cm ci cd cs c0 : Z.
Variable cost : CostDict.
Hypothesis Hcost : cost_is cost cm ci cd cs c0.

Local Abbreviation D := (D cm ci cd cs c0).

Lemma cost_of_match : cost_of cost MATCH = cm.
Proof. unfold cost_of. by destruct Hcost as (-> & _). Qed.
Lemma cost_of_ins : cost_of cost INS = ci.
Proof. unfold cost_of. by destruct Hcost as (_ & -> & _). Qed.
Lemma cost_of_del : cost_of cost DEL = cd.
Proof. unfold cost_of. by destruct Hcost as (_ & _ & -> & _). Qed.
Lemma cost_of_subst : cost_of cost SUBST = cs.
Proof. unfold cost_of. by destruct Hcost as (_ & _ & _ & -> & _). Qed.

Lemma D_ins_le s b t : D s (b :: t) ≤ ci + D s t.
Proof.
  destruct s as [|a s]; [rewrite D_nil_cons | rewrite D_cons_cons]; lia.
Qed.

Lemma D_del_le a s t : D (a :: s) t ≤ cd + D s t.
Proof.
  destruct t as [|b t]; [rewrite D_cons_nil | rewrite D_cons_cons]; lia.
Qed.

(** The value in the cell is a lower bound for every script... *)
Lemma D_lower_bound s t es : script s t es → D s t ≤ c0 + edits_cost cost es.
Proof.
  induction 1; simpl.
  - rewrite D_nil_nil. lia.
  - rewrite cost_of_match, D_cons_cons. unfold subst_of.
    rewrite bool_decide_eq_true_2 by done. lia.
  - rewrite cost_of_subst, D_cons_cons. unfold subst_of.
    rewrite bool_decide_eq_false_2 by done. lia.
  - rewrite cost_of_ins. pose proof (D_ins_le s b t). lia.
  - rewrite cost_of_del. pose proof (D_del_le a s t). lia.
Qed.

(** ... and some script attains it. *)
Lemma D_attained s t : ∃ es, script s t es ∧ c0 + edits_cost cost es = D s t.
Proof.
  revert t. induction s as [|a s IHs]; intros t.
  - induction t as [|b t (es & Hes & Hc)].
    + exists []. split; [constructor | simpl; rewrite D_nil_nil; lia].
    + exists (INS :: es). split; [auto|].
      simpl. rewrite cost_of_ins, D_nil_cons. lia.
  - induction t as [|b t (es & Hes & Hc)].
    + destruct (IHs []) as (es & Hes & Hc). exists (DEL :: es). split; [auto|].
      simpl. rewrite cost_of_del, D_cons_nil. lia.
    + rewrite D_cons_cons.
      destruct (Z.min_spec (subst_of cm cs a b + D s t) (ci + D (a :: s) t))
        as [[Hlt Hmin]|[Hle Hmin]];
      destruct (Z.min_spec (Z.min (subst_of cm cs a b + D s t) (ci + D (a :: s) t))
                  (cd + D s (b :: t))) as [[Hlt' Hmin']|[Hle' Hmin']];
      rewrite Hmin'; try rewrite Hmin.
      * destruct (IHs t) as (es' & Hes' & Hc'). unfold subst_of.
        case_bool_decide as Hab.
        -- subst b. exists (MATCH :: es'). split; [auto|].
           simpl. rewrite cost_of_match. lia.
        -- exists (SUBST :: es'). split; [auto|].
           simpl. rewrite cost_of_subst. lia.
      * destruct (IHs (b :: t)) as (es' & Hes' & Hc').
        exists (DEL :: es'). split; [auto|]. simpl. rewrite cost_of_del. lia.
      * exists (INS :: es). split; [auto|]. simpl. rewrite cost_of_ins. lia.
      * destruct (IHs (b :: t)) as (es' & Hes' & Hc').
        exists (DEL :: es'). split; [auto|]. simpl. rewrite cost_of_del. lia.
Qed.

Lemma D_nonneg s t :
  0 ≤ cm → 0 ≤ ci → 0 ≤ cd → 0 ≤ cs → 0 ≤ c0 → 0 ≤ D s t.
Proof.
  intros Hm Hi Hd Hs H0. revert t.
  induction s as [|a s IHs]; intros t.
  - induction t as [|b t IHt]; [rewrite D_nil_nil | rewrite D_nil_cons]; lia.
  - induction t as [|b t IHt].
    + rewrite D_cons_nil. specialize (IHs []). lia.
    + rewrite D_cons_cons. pose proof (IHs t). pose proof (IHs (b :: t)).
      unfold subst_of. case_bool_decide; lia.
Qed.
End minimum.

(** Swapping the two strings swaps the roles of insertion and deletion. *)
Lemma D_swap cm ci cd cs c0 s t : D cm ci cd cs c0 s t = D cm cd ci cs c0 t s.
Proof.
  revert t. induction s as [|a s IHs]; intros t.
  - induction t as [|b t IHt]; [done|].
    rewrite D_nil_cons, D_cons_nil, IHt. done.
  - induction t as [|b t IHt].
    + rewrite D_cons_nil, D_nil_cons, IHs. done.
    + rewrite !D_cons_cons, IHt, !IHs.
      replace (subst_of cm cs b a) with (subst_of cm cs a b); [lia|].
      unfold subst_of. repeat case_bool_decide; congruence.
Qed.

(** Every character of a string matches itself. *)
Lemma script_refl s : script s s (replicate (length s) MATCH).
Proof. induction s; simpl; auto. Qed.

Lemma edits_cost_replicate cost n m :
  edits_cost cost (replicate n m) = Z.of_nat n * cost_of cost m.
Proof. induction n as [|n IH]; [done|]. simpl replicate. simpl edits_cost. lia. Qed.

(** *** Substitutions that change nothing

    A wider notion of script lets [SUBST] step over two equal characters
    as well (replacing a character with itself). Relabelling such steps as
    [MATCH] gives an edit script, which costs no more when a match costs
    no more than a substitution. *)

Fixpoint loose_script (es : list Move) (s t : list ascii) : bool :=
  match es, s, t with
  | [], [], [] => true
  | MATCH :: es', a :: s', b :: t' => bool_decide (a = b) && loose_script es' s' t'
  | SUBST :: es', a :: s', b :: t' => loose_script es' s' t'
  | INS :: es', _, b :: t' => loose_script es' s t'
  | DEL :: es', a :: s', _ => loose_script es' s' t
  | _, _, _ => false
  end.

Fixpoint relabel (es : list Move) (s t : list ascii) : list Move :=
  match es, s, t with
  | MATCH :: es', a :: s', b :: t' => MATCH :: relabel es' s' t'
  | SUBST :: es', a :: s', b :: t' =>
    (if bool_decide (a = b) then MATCH else SUBST) :: relabel es' s' t'
  | INS :: es', _, b :: t' => INS :: relabel es' s t'
  | DEL :: es', a :: s', _ => DEL :: relabel es' s' t
  | _, _, _ => es
  end.

Lemma edit_script_loose es s t :
  edit_script es s t = true → loose_script es s t = true.
Proof.
  revert s t. induction es as [|m es IH]; intros s t; [done|].
  destruct m, s as [|a s], t as [|b t]; simpl; try done; auto.
  - intros [-> H]%andb_prop. rewrite (IH _ _ H). done.
  - intros [_ H]%andb_prop. auto.
Qed.

Lemma relabel_edit_script es s t :
  loose_script es s t = true → edit_script (relabel es s t) s t = true.
Proof.
  revert s t. induction es as [|m es IH]; intros s t; [done|].
  destruct m, s as [|a s], t as [|b t]; simpl; try done; auto.
  - intros [-> H]%andb_prop. rewrite (IH _ _ H). done.
  - intros H. case_bool_decide; simpl; auto.
Qed.

Lemma relabel_cost cost es s t :
  cost_of cost MATCH ≤ cost_of cost SUBST →
  edits_cost cost (relabel es s t) ≤ edits_cost cost es.
Proof.
  intros Hle. revert s t. induction es as [|m es IH]; intros s t; [done|].
  destruct m, s as [|a s], t as [|b t]; simpl; try lia;
    try (pose proof (IH s t); lia);
    try (pose proof (IH (a :: s) t); lia);
    try (pose proof (IH s (b :: t)); lia);
    try (pose proof (IH [] t); lia);
    try (pose proof (IH s []); lia).
  pose proof (IH s t). case_bool_decide; simpl; lia.
Qed.

(** ** [_list_edits] and the chain of predecessors *)

(** The moves met when walking the chain from a cell back to the origin. *)
Fixpoint moves_back (tb : Traceback) : list Move :=
  match tb with
  | mkTraceback _ m (Some parent) => m :: moves_back parent
  | mkTraceback _ _ None => []
  end.

(** Induction along the chain of predecessors. *)
Lemma Traceback_chain_ind (P : Traceback → Prop) :
  (∀ c m, P (mkTraceback c m None)) →
  (∀ c m parent, P parent → P (mkTraceback c m (Some parent))) →
  ∀ tb, P tb.
Proof.
  intros Hnone Hsome. fix IH 1. intros [c m [parent|]].
  - apply Hsome, IH.
  - apply Hnone.
Qed.

Lemma _list_edits_loop_spec tb acc :
  _list_edits_loop tb acc = rev (moves_back tb) ++ acc.
Proof.
  revert acc. induction tb as [c m|c m parent IH] using Traceback_chain_ind;
    intros acc; simpl.
  - done.
  - rewrite IH, <- app_assoc. done.
Qed.

Lemma _list_edits_spec tb : _list_edits tb = rev (moves_back tb).
Proof. unfold _list_edits. rewrite _list_edits_loop_spec. apply app_nil_r. Qed.

(** ** The tie-break of [_best]

    [recorded cell total label pred]: the cell holds the candidate whose
    total is [total], whose own label is [label] and whose predecessor is
    [pred]; the move it records is [MATCH] when the total equals the cost
    of the predecessor, and the candidate's label otherwise. *)
Definition recorded (cell : Traceback) (total : Z) (label : Move)
    (pred : Traceback) : Prop :=
  tb_cost cell = PyInt total
  ∧ tb_traceback cell = Some pred
  ∧ tb_move cell = if total =? zcost pred then MATCH else label.

(** The winner among the three totals: the diagonal unless another is
    strictly smaller, then the horizontal unless the vertical is strictly
    smaller. *)
Definition tie_break (cell : Traceback)
    (inc1 : Z) (m1 : Move) (diag : Traceback)
    (inc2 : Z) (m2 : Move) (left : Traceback)
    (inc3 : Z) (m3 : Move) (up : Traceback) : Prop :=
  let dt := inc1 + zcost diag in
  let ht := inc2 + zcost left in
  let vt := inc3 + zcost up in
  (dt ≤ ht → dt ≤ vt → recorded cell dt m1 diag)
  ∧ (ht < dt → ht ≤ vt → recorded cell ht m2 left)
  ∧ (vt < dt → vt < ht → recorded cell vt m3 up).

Lemma bestT_tie_break inc1 m1 t1 inc2 m2 t2 inc3 m3 t3 :
  tie_break (bestT inc1 m1 t1 inc2 m2 t2 inc3 m3 t3)
    inc1 m1 t1 inc2 m2 t2 inc3 m3 t3.
Proof.
  unfold tie_break, bestT, recorded.
  destruct (Z.ltb_spec (inc2 + zcost t2) (inc1 + zcost t1));
    [destruct (Z.ltb_spec (inc3 + zcost t3) (inc2 + zcost t2))
    | destruct (Z.ltb_spec (inc3 + zcost t3) (inc1 + zcost t1))];
    simpl; repeat split; intros; try lia; done.
Qed.

(** One of the three candidates is recorded. *)
Lemma bestT_cases inc1 m1 t1 inc2 m2 t2 inc3 m3 t3 :
  let cell := bestT inc1 m1 t1 inc2 m2 t2 inc3 m3 t3 in
  recorded cell (inc1 + zcost t1) m1 t1
  ∨ recorded cell (inc2 + zcost t2) m2 t2
  ∨ recorded cell (inc3 + zcost t3) m3 t3.
Proof.
  intros cell. destruct (bestT_tie_break inc1 m1 t1 inc2 m2 t2 inc3 m3 t3)
    as (Hd & Hh & Hv). fold cell in Hd, Hh, Hv.
  destruct (Z.le_gt_cases (inc1 + zcost t1) (inc2 + zcost t2));
    destruct (Z.le_gt_cases (inc1 + zcost t1) (inc3 + zcost t3));
    destruct (Z.le_gt_cases (inc2 + zcost t2) (inc3 + zcost t3));
    (left; apply Hd; lia) || (right; left; apply Hh; lia)
    || (right; right; apply Hv; lia).
Qed.

Lemma recorded_moves_back cell total label pred :
  recorded cell total label pred →
  moves_back cell = (if total =? zcost pred then MATCH else label) :: moves_back pred.
Proof.
  destruct cell as [c m p]. unfold recorded. simpl.
  intros (_ & -> & ->). done.
Qed.

(** *** The labels along the chain form an edit script

    When matching is free and every other operation has a non-zero cost, a
    transition adds nothing to the cost exactly when it steps over two
    equal characters, so the moves recorded along the chain of a cell are
    an edit script for the two prefixes (read from their last character). *)
Section labels.
Variables ci cd cs c0 : Z.
Hypothesis ci_nonzero : ci ≠ 0.
Hypothesis cd_nonzero : cd ≠ 0.
Hypothesis cs_nonzero : cs ≠ 0.

Lemma moves_back_script s t :
  script s t (moves_back (cellT 0 ci cd cs c0 s t)).
Proof.
  revert t. induction s as [|a s IHs]; intros t.
  - induction t as [|b t IHt]; simpl; [constructor | by constructor].
  - induction t as [|b t IHt].
    + rewrite cellT_cons_nil. simpl. constructor. apply IHs.
    + rewrite cellT_cons_cons.
      destruct (bestT_cases (subst_of 0 cs a b) (diag_move (subst_of 0 cs a b))
                  (cellT 0 ci cd cs c0 s t) ci INS (cellT 0 ci cd cs c0 (a :: s) t)
                  cd DEL (cellT 0 ci cd cs c0 s (b :: t)))
        as [Hr|[Hr|Hr]];
        rewrite (recorded_moves_back _ _ _ _ Hr).
      * unfold subst_of, diag_move. case_bool_decide as Hab.
        -- subst b. rewrite Z.add_0_l, Z.eqb_refl. constructor. apply IHs.
        -- rewrite (proj2 (Z.eqb_neq _ _)) by lia. simpl.
           rewrite (proj2 (Z.eqb_neq cs 0)) by done. simpl.
           by constructor.
      * rewrite (proj2 (Z.eqb_neq _ _)) by lia. by constructor.
      * rewrite (proj2 (Z.eqb_neq _ _)) by lia. constructor. apply IHs.
Qed.
End labels.

(** ** Which exceptions the engine can raise

    [_edit_path] raises only exceptions of the interpreter, never a
    [BrewDistanceException]: those come from the checks of [distance]. *)

Definition builtin_only {A} (m : Exc A) : Prop :=
  ∀ msg, m ≠ inl (BrewDistanceException msg).

Lemma builtin_ret {A} (a : A) : builtin_only (ret a).
Proof. by intros msg. Qed.

Lemma builtin_bind {A B} (m : Exc A) (k : A → Exc B) :
  builtin_only m → (∀ a, builtin_only (k a)) → builtin_only (bind m k).
Proof.
  intros Hm Hk msg. destruct m as [e|a]; simpl; [|apply Hk].
  intros [= ->]. by apply (Hm msg).
Qed.

Lemma builtin_getitem `{Countable K} {V} (d : gmap K V) k :
  builtin_only (getitem d k).
Proof. intros msg. unfold getitem. by destruct (d !! k). Qed.

Lemma builtin_float_of_int z : builtin_only (float_of_int z).
Proof.
  intros msg. unfold float_of_int.
  by destruct (PrimFloat.is_infinity (nearest_float z)).
Qed.

Lemma builtin_py_add a b : builtin_only (py_add a b).
Proof.
  intros msg. destruct a, b; try done; simpl;
    by destruct (float_of_int _) eqn:Hf; [intros [= ->]; apply (builtin_float_of_int _ msg Hf)|].
Qed.

Lemma builtin_py_lt a b : builtin_only (py_lt a b).
Proof. intros msg. by destruct a, b. Qed.

Lemma builtin_cost_attr t : builtin_only (cost_attr t).
Proof. intros msg. by destruct t. Qed.

Lemma builtin_str_index s i : builtin_only (str_index s i).
Proof. intros msg. unfold str_index. by destruct (String.get i s). Qed.

Lemma builtin_for_in {A S} (xs : list A) (body : A → S → Exc S) st :
  (∀ x st0, builtin_only (body x st0)) → builtin_only (for_in xs body st).
Proof.
  intros Hbody. revert st. induction xs as [|x xs IH]; intros st; simpl.
  - apply builtin_ret.
  - apply builtin_bind; [apply Hbody | apply IH].
Qed.

Create HintDb builtin.
#[local] Hint Resolve builtin_ret builtin_getitem builtin_py_add builtin_py_lt
  builtin_cost_attr builtin_str_index : builtin.

Ltac builtin_step :=
  first [ apply builtin_bind; [solve [auto with builtin] | intros ?]
        | solve [auto with builtin] ].

Lemma builtin__best t1 t2 t3 : builtin_only (_best t1 t2 t3).
Proof.
  destruct t1 as [i1 m1 p1], t2 as [i2 m2 p2], t3 as [i3 m3 p3].
  unfold _best.
  repeat first
    [ builtin_step
    | match goal with
      | |- context [if ?b then _ else _] => is_var b; destruct b
      end ].
Qed.

Lemma builtin__edit_path s1 s2 cost : builtin_only (_edit_path s1 s2 cost).
Proof.
  unfold _edit_path, _edit_path_matrix.
  apply builtin_bind; [|auto with builtin]. do 5 builtin_step.
  apply builtin_bind; [|intros ?; apply builtin_bind; [|intros ?]].
  - apply builtin_for_in. intros i d. unfold del_body. do 4 builtin_step.
  - apply builtin_for_in. intros j d. unfold ins_body. do 4 builtin_step.
  - apply builtin_for_in. intros i d. apply builtin_for_in. intros j d'.
    unfold cell_body. do 5 builtin_step.
    apply builtin_bind; [apply builtin__best | intros ?; apply builtin_ret].
Qed.

(** ** [distance] on strings *)

(** The mode is one of the three. *)
Definition valid_output (output : PyVal) : bool :=
  py_eq output (PyStr "both") || py_eq output (PyStr "distance")
  || py_eq output (PyStr "edits").

Lemma valid_output_cond output :
  negb (py_eq output (PyStr "both")) && negb (py_eq output (PyStr "distance"))
    && negb (py_eq output (PyStr "edits"))
  = negb (valid_output output).
Proof.
  unfold valid_output.
  by destruct (py_eq output (PyStr "both")), (py_eq output (PyStr "distance")),
    (py_eq output (PyStr "edits")).
Qed.

Lemma cost_not_real_numeric cost cm ci cd cs c0 :
  cost_is cost cm ci cd cs c0 → cost_not_real cost = inr false.
Proof.
  intros (Hm & Hi & Hd & Hs & _). unfold cost_not_real.
  by rewrite (getitem_Some _ _ _ Hm), (getitem_Some _ _ _ Hi),
    (getitem_Some _ _ _ Hd), (getitem_Some _ _ _ Hs).
Qed.

(** The last cell of the matrix, in closed form. *)
Definition last_cell (cm ci cd cs c0 : Z) (s1 s2 : string) : Traceback :=
  cellT cm ci cd cs c0 (rev (chars s1)) (rev (chars s2)).

(** The number in the last cell. *)
Definition last_cost (cm ci cd cs c0 : Z) (s1 s2 : string) : Z :=
  D cm ci cd cs c0 (rev (chars s1)) (rev (chars s2)).

Lemma _edit_path_numeric s1 s2 cost cm ci cd cs c0 :
  cost_is cost cm ci cd cs c0 →
  _edit_path s1 s2 cost = inr (last_cell cm ci cd cs c0 s1 s2).
Proof. intros (Hm & Hi & Hd & Hs & H0). by apply _edit_path_spec. Qed.

Lemma last_cell_cost cm ci cd cs c0 s1 s2 :
  tb_cost (last_cell cm ci cd cs c0 s1 s2) = PyInt (last_cost cm ci cd cs c0 s1 s2).
Proof. apply cellT_cost_int. Qed.

Lemma distance_numeric s1 s2 output cost cm ci cd cs c0 :
  cost_is cost cm ci cd cs c0 → valid_output output = true →
  distance (PyStr s1) (PyStr s2) output cost
  = inr (if py_eq output (PyStr "distance")
         then RetNum (PyInt (last_cost cm ci cd cs c0 s1 s2))
         else if py_eq output (PyStr "edits")
         then RetEdits (_list_edits (last_cell cm ci cd cs c0 s1 s2))
         else RetBoth (PyInt (last_cost cm ci cd cs c0 s1 s2))
                (_list_edits (last_cell cm ci cd cs c0 s1 s2))).
Proof.
  intros Hcost Hout. unfold distance.
  rewrite valid_output_cond, Hout. cbn [negb].
  rewrite (cost_not_real_numeric _ _ _ _ _ _ Hcost). cbn [bind].
  rewrite (_edit_path_numeric _ _ _ _ _ _ _ _ Hcost). cbn [bind].
  rewrite last_cell_cost.
  by destruct (py_eq output (PyStr "distance")), (py_eq output (PyStr "edits")).
Qed.

Lemma valid_output_distance : valid_output (PyStr "distance") = true.
Proof. done. Qed.
Lemma valid_output_edits : valid_output (PyStr "edits") = true.
Proof. done. Qed.
Lemma valid_output_both : valid_output (PyStr "both") = true.
Proof. done. Qed.

Lemma distance_mode_distance s1 s2 cost cm ci cd cs c0 :
  cost_is cost cm ci cd cs c0 →
  distance (PyStr s1) (PyStr s2) (PyStr "distance") cost
  = inr (RetNum (PyInt (last_cost cm ci cd cs c0 s1 s2))).
Proof.
  intros Hcost. by rewrite (distance_numeric _ _ _ _ _ _ _ _ _ Hcost valid_output_distance).
Qed.

Lemma distance_mode_edits s1 s2 cost cm ci cd cs c0 :
  cost_is cost cm ci cd cs c0 →
  distance (PyStr s1) (PyStr s2) (PyStr "edits") cost
  = inr (RetEdits (_list_edits (last_cell cm ci cd cs c0 s1 s2))).
Proof.
  intros Hcost. by rewrite (distance_numeric _ _ _ _ _ _ _ _ _ Hcost valid_output_edits).
Qed.

Lemma distance_mode_both s1 s2 cost cm ci cd cs c0 :
  cost_is cost cm ci cd cs c0 →
  distance (PyStr s1) (PyStr s2) (PyStr "both") cost
  = inr (RetBoth (PyInt (last_cost cm ci cd cs c0 s1 s2))
           (_list_edits (last_cell cm ci cd cs c0 s1 s2))).
Proof.
  intros Hcost. by rewrite (distance_numeric _ _ _ _ _ _ _ _ _ Hcost valid_output_both).
Qed.

(** ** [sdist] computes the same numbers *)

Section sdist_fill.
Variables string1 string2 : string.

(** The number [sdist] stores under [(i, j)]: the number in the cell of
    the configurable engine under the costs 0, 1, 1, 1, 0. *)
Definition sdist_at (i j : nat) : Z :=
  D 0 1 1 1 0 (rprefix string1 i) (rprefix string2 j).

Lemma sdist_del_body_spec (i : nat) (d : SDict) :
  (i < String.length string1)%nat → d !! (i, 0%nat) = Some (sdist_at i 0) →
  sdist_del_body 1 i d = inr (<[(i + 1, 0)%nat := sdist_at (i + 1) 0]> d).
Proof.
  intros Hi Hd. unfold sdist_del_body, sdist_at.
  destruct (rprefix_succ _ _ Hi) as (a & _ & ->).
  rewrite (getitem_Some _ _ _ Hd). cbn [bind]. unfold ret.
  by rewrite rprefix_0, D_cons_nil.
Qed.

Lemma sdist_ins_body_spec (j : nat) (d : SDict) :
  (j < String.length string2)%nat → d !! (0%nat, j) = Some (sdist_at 0 j) →
  sdist_ins_body 1 j d = inr (<[(0, j + 1)%nat := sdist_at 0 (j + 1)]> d).
Proof.
  intros Hj Hd. unfold sdist_ins_body, sdist_at.
  destruct (rprefix_succ _ _ Hj) as (b & _ & ->).
  rewrite (getitem_Some _ _ _ Hd). cbn [bind]. unfold ret.
  by rewrite rprefix_0, D_nil_cons.
Qed.

Lemma sdist_cell_body_spec (i j : nat) (d : SDict) :
  (i < String.length string1)%nat → (j < String.length string2)%nat →
  d !! (i, j) = Some (sdist_at i j) →
  d !! ((i + 1)%nat, j) = Some (sdist_at (i + 1) j) →
  d !! (i, (j + 1)%nat) = Some (sdist_at i (j + 1)) →
  sdist_cell_body string1 string2 1 1 1 i j d
  = inr (<[(i + 1, j + 1)%nat := sdist_at (i + 1) (j + 1)]> d).
Proof.
  intros Hi Hj Hdiag Hleft Hup. unfold sdist_cell_body.
  destruct (rprefix_succ _ _ Hi) as (a & -> & Ha).
  destruct (rprefix_succ _ _ Hj) as (b & -> & Hb). cbn [bind].
  rewrite (getitem_Some _ _ _ Hdiag), (getitem_Some _ _ _ Hleft),
    (getitem_Some _ _ _ Hup). cbn [bind]. unfold ret.
  do 2 f_equal. unfold sdist_at in *. rewrite Ha, Hb, D_cons_cons.
  unfold subst_of. lia.
Qed.

Lemma sdist_spec :
  sdist string1 string2 = inr (last_cost 0 1 1 1 0 string1 string2).
Proof.
  destruct (fill_spec sdist_at (String.length string1) (String.length string2)
              (sdist_del_body 1) (sdist_ins_body 1)
              (sdist_cell_body string1 string2 1 1 1)
              sdist_del_body_spec sdist_ins_body_spec sdist_cell_body_spec)
    as (dc & dr & d & Hc & Hr & Hd & Hfill).
  unfold sdist. change 0 with (sdist_at 0 0) at 1.
  rewrite Hc. cbn [bind]. rewrite Hr. cbn [bind]. rewrite Hd. cbn [bind].
  rewrite (getitem_Some _ _ _ (Hfill _ _ (Nat.le_refl _) (Nat.le_refl _))).
  unfold sdist_at, last_cost. by rewrite !rprefix_all.
Qed.
End sdist_fill.

(** ** Calls and the objects they share

    The functions above take and return values. A Python dict or list is an
    object: [cost] is a reference to a dict made by the caller, or to the
    one dict made for the default of the parameter when the [def]
    statement ran, which every call that omits the argument shares;
    [distances = dict()] and [just_edits = list()] make new objects, and
    [distances[i, j] = ...] and [just_edits.insert(0, ...)] write into the
    object their reference names. This section runs the same statements on
    a heap of objects. Numbers, strings, members of [Move] and instances
    of [Traceback] cannot be changed and stay values. *)

Abbreviation loc := nat.

(** The mutable objects: a dict whose keys are members of [Move], bound to
    values, or pairs of indices, bound to instances of [Traceback], both
    kinds in one dict if a program writes them there; and a list of
    moves. *)
Inductive Obj : Type :=
  | DictObj (moves : CostDict) (cells : Distances)
  | ListObj (items : list Move).

(** The heap: the object of reference [l] is the element of index [l]; a
    new object is put at the end. *)
Abbreviation Heap := (list Obj).

(** How a statement ends. [NoObject] is the use of a reference that names
    no object of the heap; no Python program can hold such a reference. *)
Inductive Outcome (A : Type) : Type :=
  | Returns (a : A)
  | Raises (e : PyExc)
  | NoObject.
Arguments Returns {A} a.
Arguments Raises {A} e.
Arguments NoObject {A}.

(** A statement runs in a heap and leaves a heap, also when it raises. *)
Definition HM (A : Type) : Type := Heap → Outcome A * Heap.

Definition hret {A} (a : A) : HM A := λ h, (Returns a, h).
Definition hraise {A} (e : PyExc) : HM A := λ h, (Raises e, h).
Definition hbind {A B} (m : HM A) (k : A → HM B) : HM B :=
  λ h, match m h with
       | (Returns a, h') => k a h'
       | (Raises e, h') => (Raises e, h')
       | (NoObject, h') => (NoObject, h')
       end.

Notation "x <<- m ;; k" := (hbind m (λ x, k))
  (at level 100, m at next level, right associativity).

Definition outcome_of {A} (x : Exc A) : Outcome A :=
  match x with
  | inr a => Returns a
  | inl e => Raises e
  end.

(** An expression that touches no object. *)
Definition lift {A} (x : Exc A) : HM A := λ h, (outcome_of x, h).

(** A new object, the object of a reference, and the replacement of the
    object of a reference. *)
Definition alloc (o : Obj) : HM loc := λ h, (Returns (length h), h ++ [o]).

Definition deref (l : loc) : HM Obj :=
  λ h, match h !! l with
       | Some o => (Returns o, h)
       | None => (NoObject, h)
       end.

Definition store (l : loc) (o : Obj) : HM unit :=
  λ h, match h !! l with
       | Some _ => (Returns tt, <[l := o]> h)
       | None => (NoObject, h)
       end.

(** [for x in xs: body] *)
Fixpoint hfor {A} (xs : list A) (body : A → HM unit) : HM unit :=
  match xs with
  | [] => hret tt
  | x :: xs' => _ <<- body x ;; hfor xs' body
  end.

Module shared.

(** [d[m]] for a member [m] of [Move]; a list takes no such index. *)
Definition getitem_move (d : loc) (m : Move) : HM PyVal :=
  o <<- deref d ;;
  match o with
  | DictObj moves _ => lift (getitem moves m)
  | ListObj _ => hraise TypeError
  end.

(** [d[i, j]] *)
Definition getitem_cell (d : loc) (k : nat * nat) : HM Traceback :=
  o <<- deref d ;;
  match o with
  | DictObj _ cells => lift (getitem cells k)
  | ListObj _ => hraise TypeError
  end.

(** [d[i, j] = tb] *)
Definition setitem_cell (d : loc) (k : nat * nat) (tb : Traceback) : HM unit :=
  o <<- deref d ;;
  match o with
  | DictObj moves cells => store d (DictObj moves (<[k := tb]> cells))
  | ListObj _ => hraise TypeError
  end.

(** [l.insert(0, m)]; a dict has no attribute [insert]. *)
Definition list_insert_0 (l : loc) (m : Move) : HM unit :=
  o <<- deref l ;;
  match o with
  | ListObj items => store l (ListObj (m :: items))
  | DictObj _ _ => hraise AttributeError
  end.

(** *** [_edit_path] *)

Definition del_body (distances : loc) (del_cost : PyVal) (i : nat) : HM unit :=
  prev <<- getitem_cell distances (i, 0%nat) ;;
  let so_far := tb_cost prev in
  c <<- lift (py_add so_far del_cost) ;;
  prev' <<- getitem_cell distances (i, 0%nat) ;;
  setitem_cell distances (i + 1, 0)%nat (mkTraceback c DEL (Some prev')).

Definition ins_body (distances : loc) (ins_cost : PyVal) (j : nat) : HM unit :=
  prev <<- getitem_cell distances (0%nat, j) ;;
  let so_far := tb_cost prev in
  c <<- lift (py_add so_far ins_cost) ;;
  prev' <<- getitem_cell distances (0%nat, j) ;;
  setitem_cell distances (0, j + 1)%nat (mkTraceback c INS (Some prev')).

Definition cell_body (distances : loc) (string1 string2 : string)
    (match_cost ins_cost del_cost subst_cost : PyVal) (i j : nat) : HM unit :=
  a <<- lift (str_index string1 i) ;;
  b <<- lift (str_index string2 j) ;;
  let subst := if bool_decide (a = b) then match_cost else subst_cost in
  diag <<- getitem_cell distances (i, j) ;;
  left <<- getitem_cell distances (i + 1, j)%nat ;;
  up <<- getitem_cell distances (i, j + 1)%nat ;;
  cell <<- lift (_best
    (mkTraceback subst (if py_truthy subst then SUBST else MATCH) (Some diag))
    (mkTraceback ins_cost INS (Some left))
    (mkTraceback del_cost DEL (Some up))) ;;
  setitem_cell distances (i + 1, j + 1)%nat cell.

Definition _edit_path (string1 string2 : string) (cost : loc) : HM Traceback :=
  let len1 := String.length string1 in
  let len2 := String.length string2 in
  match_cost <<- getitem_move cost MATCH ;;
  ins_cost <<- getitem_move cost INS ;;
  del_cost <<- getitem_move cost DEL ;;
  subst_cost <<- getitem_move cost SUBST ;;
  initial_cost <<- getitem_move cost INITIAL ;;
  distances <<- alloc (DictObj ∅ ∅) ;;
  _ <<- setitem_cell distances (0, 0)%nat (mkTraceback initial_cost INITIAL None) ;;
  _ <<- hfor (range 0 len1) (del_body distances del_cost) ;;
  _ <<- hfor (range 0 len2) (ins_body distances ins_cost) ;;
  _ <<- hfor (range 0 len1)
          (λ i, hfor (range 0 len2)
             (cell_body distances string1 string2
                match_cost ins_cost del_cost subst_cost i)) ;;
  getitem_cell distances (len1, len2).

(** *** [_list_edits] *)

Fixpoint _list_edits_loop (raw_edits : Traceback) (just_edits : loc) : HM unit :=
  match raw_edits with
  | mkTraceback _ m (Some parent) =>
    _ <<- list_insert_0 just_edits m ;;
    _list_edits_loop parent just_edits
  | mkTraceback _ _ None => hret tt
  end.

Definition _list_edits (raw_edits : Traceback) : HM loc :=
  just_edits <<- alloc (ListObj []) ;;
  _ <<- _list_edits_loop raw_edits just_edits ;;
  hret just_edits.

(** *** [distance] *)

(** What [distance] returns; the list of edits is an object. *)
Inductive Ret : Type :=
  | RetNum (d : PyVal)
  | RetEdits (edits : loc)
  | RetBoth (d : PyVal) (edits : loc).

Definition cost_not_real (cost : loc) : HM bool :=
  m <<- getitem_move cost MATCH ;;
  if negb (is_real m) then hret true else
  i <<- getitem_move cost INS ;;
  if negb (is_real i) then hret true else
  d <<- getitem_move cost DEL ;;
  if negb (is_real d) then hret true else
  s <<- getitem_move cost SUBST ;;
  hret (negb (is_real s)).

Definition distance (string1 string2 output : PyVal) (cost : loc) : HM Ret :=
  match string1, string2 with
  | PyStr s1, PyStr s2 =>
    if negb (py_eq output (PyStr "both")) && negb (py_eq output (PyStr "distance"))
       && negb (py_eq output (PyStr "edits"))
    then hraise InvalidOutputModeError
    else
      bad <<- cost_not_real cost ;;
      if bad : bool then hraise InvalidCostError
      else
        results <<- _edit_path s1 s2 cost ;;
        if py_eq output (PyStr "distance") then hret (RetNum (tb_cost results))
        else if py_eq output (PyStr "edits") then
          edits <<- _list_edits results ;;
          hret (RetEdits edits)
        else
          edits <<- _list_edits results ;;
          hret (RetBoth (tb_cost results) edits)
  | _, _ => hraise InputTypeError
  end.

End shared.

(** *** Calls *)

(** The reference of the dict made for the default of [cost], and the heap
    when the module has been loaded. *)
Definition default_loc : loc := 0%nat.

Definition initial_heap : Heap := [DictObj default_cost ∅].

(** The arguments of a call: [None] for an omitted optional argument. *)
Record Call : Type := mkCall {
  arg_string1 : PyVal;
  arg_string2 : PyVal;
  arg_output : option PyVal;
  arg_cost : option loc
}.

(** The reference the parameter [cost] is bound to. *)
Definition cost_ref (c : Call) : loc := default default_loc (arg_cost c).

Definition distance_call (c : Call) : HM shared.Ret :=
  shared.distance (arg_string1 c) (arg_string2 c)
    (default (PyStr "both") (arg_output c)) (cost_ref c).

(** What the caller sees of a result: the number, and the items of the
    list. *)
Definition read_list (h : Heap) (l : loc) : option (list Move) :=
  match h !! l with
  | Some (ListObj items) => Some items
  | _ => None
  end.

Definition value_of (h : Heap) (r : shared.Ret) : option Ret :=
  match r with
  | shared.RetNum d => Some (RetNum d)
  | shared.RetEdits l => RetEdits <$> read_list h l
  | shared.RetBoth d l => RetBoth d <$> read_list h l
  end.

Definition observe (x : Outcome shared.Ret * Heap) : option (Exc Ret) :=
  match x.1 with
  | Returns r => inr <$> value_of x.2 r
  | Raises e => Some (inl e)
  | NoObject => None
  end.

(** A sequence of calls, each running in the heap left by the one before;
    what the caller sees of each, and the heap after the last. *)
Fixpoint run_calls (cs : list Call) (h : Heap) : list (option (Exc Ret)) * Heap :=
  match cs with
  | [] => ([], h)
  | c :: cs' =>
    let r := distance_call c h in
    let '(rs, h') := run_calls cs' r.2 in
    (observe r :: rs, h')
  end.

(** * The properties of the specification *)

(** ** C1: the distance is the cost of a cheapest edit script *)

Lemma last_cost_lower_bound cost cm ci cd cs c0 s t es :
  cost_is cost cm ci cd cs c0 →
  edit_script es (chars s) (chars t) = true →
  last_cost cm ci cd cs c0 s t ≤ c0 + edits_cost cost es.
Proof.
  intros Hcost Hes. apply edit_script_iff, script_rev in Hes.
  rewrite <- (edits_cost_rev cost es).
  by apply (D_lower_bound cm ci cd cs c0 cost Hcost).
Qed.

Lemma last_cost_attained cost cm ci cd cs c0 s t :
  cost_is cost cm ci cd cs c0 →
  ∃ es, edit_script es (chars s) (chars t) = true
        ∧ c0 + edits_cost cost es = last_cost cm ci cd cs c0 s t.
Proof.
  intros Hcost.
  destruct (D_attained cm ci cd cs c0 cost Hcost (rev (chars s)) (rev (chars t)))
    as (es & Hes & Hc).
  exists (rev es). split.
  - apply edit_script_iff, script_rev_iff. by rewrite rev_involutive.
  - by rewrite edits_cost_rev.
Qed.

Lemma last_cost_same_string s : last_cost 0 1 1 1 0 s s = 0.
Proof.
  apply Z.le_antisymm.
  - pose proof (last_cost_lower_bound default_cost 0 1 1 1 0 s s
                  (replicate (length (chars s)) MATCH) default_cost_is) as H.
    rewrite edits_cost_replicate in H.
    rewrite (cost_of_match 0 1 1 1 0 default_cost default_cost_is) in H.
    rewrite Z.mul_0_r in H. apply H, edit_script_iff, script_refl.
  - apply D_nonneg; lia.
Qed.

(** The costs Match 0.0, Insert 2.0**53, Delete 1.0, Substitute 2.0**60
    and Initial 0.0, and the same numbers as integers. *)
Definition cost_large_floats : CostDict :=
  {[ MATCH := PyFloat (nearest_float 0); INS := PyFloat (nearest_float (2 ^ 53));
     DEL := PyFloat (nearest_float 1); SUBST := PyFloat (nearest_float (2 ^ 60));
     INITIAL := PyFloat (nearest_float 0) ]}.

Definition cost_large_ints : CostDict :=
  {[ MATCH := PyInt 0; INS := PyInt (2 ^ 53); DEL := PyInt 1;
     SUBST := PyInt (2 ^ 60); INITIAL := PyInt 0 ]}.

Lemma cost_large_ints_is : cost_is cost_large_ints 0 (2 ^ 53) 1 (2 ^ 60) 0.
Proof. by repeat split. Qed.

(** C1, as stated, fails for costs that are floats: with the costs above,
    none of them negative and the initial one 0, every edit script from
    ["ab"] to ["c"] costs at least 2**53 + 2, and [distance] returns
    2.0**53. The additions of [_best] round: 2.0**53 + 1.0 is 2.0**53. *)
Lemma float_costs_return_less_than_minimum :
  (∀ m, ∃ f z,
     cost_large_floats !! m = Some (PyFloat f)
     ∧ cost_large_ints !! m = Some (PyInt z)
     ∧ py_eq (PyFloat f) (PyInt z) = true ∧ 0 ≤ z)
  ∧ cost_large_ints !! INITIAL = Some (PyInt 0)
  ∧ distance (PyStr "ab") (PyStr "c") (PyStr "distance") cost_large_floats
    = inr (RetNum (PyFloat (nearest_float (2 ^ 53))))
  ∧ py_eq (PyFloat (nearest_float (2 ^ 53))) (PyInt (2 ^ 53)) = true
  ∧ ∀ es, edit_script es (chars "ab") (chars "c") = true →
          2 ^ 53 + 2 ≤ edits_cost cost_large_ints es.
Proof.
  split; [|split; [|split; [|split]]].
  - intros m. destruct m; eexists _, _;
      (split; [reflexivity|]; split; [reflexivity|]; split;
       [vm_compute; reflexivity | vm_compute; discriminate]).
  - reflexivity.
  - vm_compute. reflexivity.
  - vm_compute. reflexivity.
  - intros es Hes.
    pose proof (last_cost_lower_bound cost_large_ints 0 (2 ^ 53) 1 (2 ^ 60) 0
                  "ab" "c" es cost_large_ints_is Hes) as H.
    assert (last_cost 0 (2 ^ 53) 1 (2 ^ 60) 0 "ab" "c" = 2 ^ 53 + 2) as Hd
      by (vm_compute; reflexivity).
    lia.
Qed.

(** C1, amended. For all strings [s] and [t] and every cost dict that
    gives the five kinds integer costs, none of them negative and the
    initial one 0,
    [distance(s, t, "distance", cost)] returns a number [d] such that no
    edit script from [s] to [t] costs less than [d] and some edit script
    costs exactly [d]; [d] is not negative; and under the default costs
    [distance(s, s, "distance")] is 0. An edit script steps with [MATCH]
    over equal characters and with [SUBST] over different ones; when a
    match costs no more than a substitution, [d] is also a lower bound for
    the scripts that may substitute a character for itself. *)
Theorem distance_is_minimum_cost (s t : string) (cost : CostDict)
    (cm ci cd cs : Z) :
  cost_is cost cm ci cd cs 0 →
  0 ≤ cm → 0 ≤ ci → 0 ≤ cd → 0 ≤ cs →
  ∃ d : Z,
    distance (PyStr s) (PyStr t) (PyStr "distance") cost = inr (RetNum (PyInt d))
    ∧ (∀ es, edit_script es (chars s) (chars t) = true → d ≤ edits_cost cost es)
    ∧ (∃ es, edit_script es (chars s) (chars t) = true ∧ edits_cost cost es = d)
    ∧ (cm ≤ cs →
       ∀ es, loose_script es (chars s) (chars t) = true → d ≤ edits_cost cost es)
    ∧ 0 ≤ d
    ∧ distance (PyStr s) (PyStr s) (PyStr "distance") default_cost
      = inr (RetNum (PyInt 0)).
Proof.
  intros Hcost Hm Hi Hd Hs. exists (last_cost cm ci cd cs 0 s t).
  split; [by apply distance_mode_distance|]. split; [|split; [|split; [|split]]].
  - intros es Hes.
    pose proof (last_cost_lower_bound _ _ _ _ _ _ _ _ _ Hcost Hes). lia.
  - destruct (last_cost_attained _ _ _ _ _ _ s t Hcost) as (es & Hes & Hc).
    exists es. split; [done | lia].
  - intros Hle es Hes.
    pose proof (last_cost_lower_bound _ _ _ _ _ _ _ _ _ Hcost
                  (relabel_edit_script _ _ _ Hes)) as Hlow.
    pose proof (relabel_cost cost es (chars s) (chars t)) as Hrel.
    rewrite (cost_of_match _ _ _ _ _ _ Hcost),
      (cost_of_subst _ _ _ _ _ _ Hcost) in Hrel.
    specialize (Hrel Hle). lia.
  - apply D_nonneg; lia.
  - rewrite (distance_mode_distance _ _ _ _ _ _ _ _ default_cost_is).
    by rewrite last_cost_same_string.
Qed.

Lemma distance_is_minimum_cost_witness :
  cost_is default_cost 0 1 1 1 0
  ∧ ∃ d : Z,
      distance (PyStr "foo") (PyStr "fou") (PyStr "distance") default_cost
      = inr (RetNum (PyInt d))
      ∧ (∀ es, edit_script es (chars "foo") (chars "fou") = true
               → d ≤ edits_cost default_cost es)
      ∧ (∃ es, edit_script es (chars "foo") (chars "fou") = true
               ∧ edits_cost default_cost es = d)
      ∧ (0 ≤ 1 →
         ∀ es, loose_script es (chars "foo") (chars "fou") = true
               → d ≤ edits_cost default_cost es)
      ∧ 0 ≤ d
      ∧ distance (PyStr "foo") (PyStr "foo") (PyStr "distance") default_cost
        = inr (RetNum (PyInt 0)).
Proof.
  split; [exact default_cost_is|].
  apply (distance_is_minimum_cost "foo" "fou" default_cost 0 1 1 1);
    [exact default_cost_is | lia ..].
Defined.

(** When a match costs more than a substitution, replacing a character
    with itself is cheaper than anything [_edit_path] considers. *)
Example self_substitution_is_cheaper :
  distance (PyStr "a") (PyStr "a") (PyStr "distance") (<[MATCH := PyInt 2]> default_cost)
  = inr (RetNum (PyInt 2))
  ∧ loose_script [SUBST] (chars "a") (chars "a") = true
  ∧ edit_script [SUBST] (chars "a") (chars "a") = false
  ∧ edits_cost (<[MATCH := PyInt 2]> default_cost) [SUBST] = 1.
Proof. repeat split; vm_compute; reflexivity. Qed.

(** ** C2: the tie-break in the interior cells *)



(** The override at work: with a free insertion the horizontal candidate
    wins in the cell [(1, 1)] of ["a"] against ["b"] and is recorded as a
    match. *)
Example free_insertion_is_labelled_match :
  distance (PyStr "a") (PyStr "ab") (PyStr "both")
    (<[INS := PyInt 0]> default_cost)
  = inr (RetBoth (PyInt 0) [MATCH; MATCH]).
Proof. vm_compute. reflexivity. Qed.

(** ** C3: the edits returned under the default costs *)

(** C3. For all strings [s] and [t], [distance(s, t, "edits")] under the
    default costs returns a list of moves that contains only [MATCH],
    [INS], [DEL] and [SUBST] (never the sentinel [INITIAL]), that is an edit
    script from [s] to [t] read from the first edit to the last, and whose
    application to [s] from left to right yields [t]. *)
Theorem default_edits_reconstruct_target (s t : string) :
  ∃ es : list Move,
    distance (PyStr s) (PyStr t) (PyStr "edits") default_cost = inr (RetEdits es)
    ∧ Forall (λ m, m ∈ [MATCH; INS; DEL; SUBST]) es
    ∧ edit_script es (chars s) (chars t) = true
    ∧ apply_edits es (chars s) (chars t) = Some (chars t).
Proof.
  exists (_list_edits (last_cell 0 1 1 1 0 s t)).
  split; [apply (distance_mode_edits _ _ _ _ _ _ _ _ default_cost_is)|].
  assert (script (chars s) (chars t) (_list_edits (last_cell 0 1 1 1 0 s t)))
    as Hscript.
  { rewrite _list_edits_spec. apply script_rev_iff. rewrite rev_involutive.
    apply moves_back_script; lia. }
  split; [|split].
  - apply Forall_forall. intros m Hin.
    pose proof (script_no_initial _ _ _ Hscript) as Hno.
    destruct m; by repeat constructor.
  - by apply edit_script_iff.
  - by apply script_apply.
Qed.

(** ** C4: validation of the cost dict *)

(** A cost dict without an entry for [INS]. *)
Definition cost_without_ins : CostDict :=
  {[ MATCH := PyInt 0; DEL := PyInt 1; SUBST := PyInt 1; INITIAL := PyInt 0 ]}.

(** A cost dict whose entry for [INITIAL] is not a number. *)
Definition cost_initial_none : CostDict := <[INITIAL := PyNone]> default_cost.




Example distance_cost_initial_none :
  distance (PyStr "a") (PyStr "b") (PyStr "distance") cost_initial_none
  = inl TypeError.
Proof. vm_compute. reflexivity. Qed.






(** ** C5: the fixed-cost implementation *)

(** C5. For all strings [s] and [t], [sdist(s, t)] returns a number and
    [distance(s, t, "distance")] under the default costs returns the same
    number. ([sdist] returns it as a float, [distance] as an integer.) *)
Theorem sdist_agrees_with_default_distance (s t : string) :
  ∃ d : Z,
    sdist s t = inr d
    ∧ distance (PyStr s) (PyStr t) (PyStr "distance") default_cost
      = inr (RetNum (PyInt d)).
Proof.
  exists (last_cost 0 1 1 1 0 s t). split.
  - apply sdist_spec.
  - apply distance_mode_distance, default_cost_is.
Qed.

(** ** C6: symmetry *)



(** Without the hypothesis the two directions differ. *)
Example distance_not_symmetric :
  distance (PyStr "a") (PyStr "") (PyStr "distance") (<[DEL := PyInt 5]> default_cost)
  = inr (RetNum (PyInt 5))
  ∧ distance (PyStr "") (PyStr "a") (PyStr "distance") (<[DEL := PyInt 5]> default_cost)
    = inr (RetNum (PyInt 1)).
Proof. split; vm_compute; reflexivity. Qed.

(** ** C7: the three output modes *)



(** ** C8: an empty source *)







(** ** C9: the checks on the strings and on the mode *)

Lemma builtin_cost_not_real cost : builtin_only (cost_not_real cost).
Proof.
  unfold cost_not_real.
  repeat first
    [ builtin_step
    | match goal with
      | |- context [if negb (is_real ?v) then _ else _] => destruct (is_real v); cbn [negb]
      end ].
Qed.

(** The exceptions a call on two strings can raise. *)
Lemma distance_str_error s1 s2 output cost e :
  distance (PyStr s1) (PyStr s2) output cost = inl e →
  (valid_output output = false ∧ e = InvalidOutputModeError)
  ∨ (valid_output output = true
     ∧ (e = InvalidCostError ∨ ∀ msg, e ≠ BrewDistanceException msg)).
Proof.
  unfold distance. rewrite valid_output_cond.
  destruct (valid_output output); cbn [negb].
  - intros H. right. split; [done|].
    destruct (cost_not_real cost) as [e0|bad] eqn:Hc; cbn [bind] in H.
    + right. intros msg ->. injection H as ->. by apply (builtin_cost_not_real cost msg).
    + destruct bad; [left; by injection H|]. right.
      destruct (_edit_path s1 s2 cost) as [e0|r] eqn:Hp; cbn [bind] in H.
      * intros msg ->. injection H as ->. by apply (builtin__edit_path s1 s2 cost msg).
      * by destruct (py_eq output (PyStr "distance")), (py_eq output (PyStr "edits")).
  - intros [= <-]. by left.
Qed.

(** C9. [distance] raises the non-string-input exception exactly when
    [string1] or [string2] is not a string, whatever the mode and the cost
    dict are; and on two strings it raises the invalid-output exception
    exactly when the mode is none of ["distance"], ["edits"], ["both"]. *)
Theorem input_and_mode_errors (string1 string2 output : PyVal)
    (cost : CostDict) (s1 s2 : string) :
  (distance string1 string2 output cost = inl InputTypeError
   ↔ is_str string1 = false ∨ is_str string2 = false)
  ∧ (distance (PyStr s1) (PyStr s2) output cost = inl InvalidOutputModeError
     ↔ valid_output output = false).
Proof.
  split; split.
  - intros H. destruct string1 as [| | x |]; [by left | by left | | by left].
    destruct string2 as [| | y |]; [by right | by right | | by right].
    destruct (distance_str_error _ _ _ _ _ H) as [[_ He]|[_ [He|He]]].
    + discriminate He.
    + discriminate He.
    + by destruct (He _ eq_refl).
  - intros [H|H]; destruct string1, string2; done.
  - intros H. destruct (distance_str_error _ _ _ _ _ H) as [[Hv _]|[_ [He|He]]].
    + done.
    + discriminate He.
    + by destruct (He _ eq_refl).
  - intros H. unfold distance. by rewrite valid_output_cond, H.
Qed.

Example distance_non_string :
  distance (PyInt 3) (PyStr "a") (PyStr "bogus") cost_without_ins
  = inl InputTypeError.
Proof. reflexivity. Qed.

Example distance_bogus_mode :
  distance (PyStr "a") (PyStr "b") (PyStr "bogus") cost_without_ins
  = inl InvalidOutputModeError.
Proof. reflexivity. Qed.

(** ** C10: calls do not change the cost dicts *)

(** *** Which objects a statement leaves as they are

    [frame n m Q]: run in a heap with at least [n] objects, [m] changes
    none of the first [n], removes none, and what it returns satisfies
    [Q]. *)
Definition frame {A} (n : nat) (m : HM A) (Q : A → Prop) : Prop :=
  ∀ h, (n ≤ length h)%nat →
    (length h ≤ length (m h).2)%nat
    ∧ (∀ l : nat, (l < n)%nat → (m h).2 !! l = h !! l)
    ∧ ∀ a, (m h).1 = Returns a → Q a.

Lemma frame_weaken {A} n (m : HM A) (Q R : A → Prop) :
  frame n m Q → (∀ a, Q a → R a) → frame n m R.
Proof.
  intros Hm HQR h Hn. destruct (Hm h Hn) as (? & ? & ?). naive_solver.
Qed.

Lemma frame_same {A} n (m : HM A) : (∀ h, (m h).2 = h) → frame n m (λ _, True).
Proof. intros Hm h Hn. rewrite Hm. split; [lia|]. by split. Qed.

Lemma frame_hret {A} n (a : A) : frame n (hret a) (λ _, True).
Proof. by apply frame_same. Qed.

Lemma frame_hraise {A} n e : frame n (@hraise A e) (λ _, True).
Proof. by apply frame_same. Qed.

Lemma frame_lift {A} n (x : Exc A) : frame n (lift x) (λ _, True).
Proof. by apply frame_same. Qed.

Lemma frame_deref n l : frame n (deref l) (λ _, True).
Proof. apply frame_same. intros h. unfold deref. by destruct (h !! l). Qed.

Lemma frame_alloc n o : frame n (alloc o) (λ l, (n ≤ l)%nat).
Proof.
  intros h Hn. unfold alloc. simpl. split; [rewrite length_app; lia|].
  split.
  - intros l Hl. apply lookup_app_l. lia.
  - intros a [= <-]. done.
Qed.

Lemma frame_store n l o : (n ≤ l)%nat → frame n (store l o) (λ _, True).
Proof.
  intros Hl h Hn. unfold store. destruct (h !! l); simpl.
  - split; [rewrite length_insert; lia|]. split; [|done].
    intros l' Hl'. apply list_lookup_insert_ne. lia.
  - split; [lia|]. by split.
Qed.

Lemma frame_hbind {A B} n (m : HM A) (k : A → HM B) (Q : A → Prop) (R : B → Prop) :
  frame n m Q → (∀ a, Q a → frame n (k a) R) → frame n (hbind m k) R.
Proof.
  intros Hm Hk h Hn. destruct (Hm h Hn) as (Hlen & Hsame & HQ).
  unfold hbind. destruct (m h) as [[a| |] h1]; simpl in *;
    [|by split; [lia|split]..].
  destruct (Hk a (HQ a eq_refl) h1 ltac:(lia)) as (Hlen' & Hsame' & HR).
  split; [lia|]. split; [|done].
  intros l Hl. by rewrite Hsame', Hsame.
Qed.

Lemma frame_hfor {A} n (xs : list A) (body : A → HM unit) :
  (∀ x, frame n (body x) (λ _, True)) → frame n (hfor xs body) (λ _, True).
Proof.
  intros Hbody. induction xs as [|x xs IH]; simpl.
  - apply frame_hret.
  - eapply frame_hbind; [apply Hbody|]. intros _ _. apply IH.
Qed.

(** One step of a frame proof: split a sequence, or close a primitive. *)
Ltac frame_step :=
  lazymatch goal with
  | |- frame _ (hbind _ _) _ => eapply frame_hbind; [|intros ? ?]
  | |- frame _ (hret _) _ => apply frame_hret
  | |- frame _ (hraise _) _ => apply frame_hraise
  | |- frame _ (lift _) _ => apply frame_lift
  | |- frame _ (deref _) _ => apply frame_deref
  | |- frame _ (store _ _) _ => apply frame_store; lia
  | |- frame _ (match ?o with DictObj _ _ => _ | ListObj _ => _ end) _ => destruct o
  | |- frame _ (if ?b then _ else _) _ => destruct b
  end.

Lemma frame_getitem_move n d m : frame n (shared.getitem_move d m) (λ _, True).
Proof. unfold shared.getitem_move. repeat frame_step. Qed.

Lemma frame_getitem_cell n d k : frame n (shared.getitem_cell d k) (λ _, True).
Proof. unfold shared.getitem_cell. repeat frame_step. Qed.

Lemma frame_setitem_cell n d k tb :
  (n ≤ d)%nat → frame n (shared.setitem_cell d k tb) (λ _, True).
Proof. intros Hd. unfold shared.setitem_cell. repeat frame_step. Qed.

Lemma frame_list_insert_0 n l m :
  (n ≤ l)%nat → frame n (shared.list_insert_0 l m) (λ _, True).
Proof. intros Hl. unfold shared.list_insert_0. repeat frame_step. Qed.

Lemma frame_del_body n d del_cost i :
  (n ≤ d)%nat → frame n (shared.del_body d del_cost i) (λ _, True).
Proof.
  intros Hd. unfold shared.del_body.
  repeat first [apply frame_getitem_cell | by apply frame_setitem_cell | frame_step].
Qed.

Lemma frame_ins_body n d ins_cost j :
  (n ≤ d)%nat → frame n (shared.ins_body d ins_cost j) (λ _, True).
Proof.
  intros Hd. unfold shared.ins_body.
  repeat first [apply frame_getitem_cell | by apply frame_setitem_cell | frame_step].
Qed.

Lemma frame_cell_body n d s1 s2 cm ci cd cs i j :
  (n ≤ d)%nat → frame n (shared.cell_body d s1 s2 cm ci cd cs i j) (λ _, True).
Proof.
  intros Hd. unfold shared.cell_body.
  repeat first [apply frame_getitem_cell | by apply frame_setitem_cell | frame_step].
Qed.

(** [_edit_path] writes into the dict it has made and into no other
    object. *)
Lemma frame_edit_path n s1 s2 cost :
  frame n (shared._edit_path s1 s2 cost) (λ _, True).
Proof.
  unfold shared._edit_path.
  do 5 (eapply frame_hbind; [apply frame_getitem_move|intros ? _]).
  eapply frame_hbind; [apply frame_alloc|intros d Hd].
  eapply frame_hbind; [by apply frame_setitem_cell|intros _ _].
  eapply frame_hbind; [apply frame_hfor; intros; by apply frame_del_body|intros _ _].
  eapply frame_hbind; [apply frame_hfor; intros; by apply frame_ins_body|intros _ _].
  eapply frame_hbind; [|intros _ _; apply frame_getitem_cell].
  apply frame_hfor. intros i. apply frame_hfor. intros j.
  by apply frame_cell_body.
Qed.

Lemma frame_list_edits_loop n tb l :
  (n ≤ l)%nat → frame n (shared._list_edits_loop tb l) (λ _, True).
Proof.
  intros Hl. induction tb as [c m|c m parent IH] using Traceback_chain_ind; simpl.
  - apply frame_hret.
  - eapply frame_hbind; [by apply frame_list_insert_0|]. intros _ _. apply IH.
Qed.

Lemma frame_list_edits n tb : frame n (shared._list_edits tb) (λ _, True).
Proof.
  unfold shared._list_edits.
  eapply frame_hbind; [apply frame_alloc|intros l Hl].
  eapply frame_hbind; [by apply frame_list_edits_loop|intros _ _].
  apply frame_hret.
Qed.

Lemma frame_cost_not_real n cost : frame n (shared.cost_not_real cost) (λ _, True).
Proof.
  unfold shared.cost_not_real.
  repeat first [apply frame_getitem_move | frame_step].
Qed.

Lemma frame_distance n string1 string2 output cost :
  frame n (shared.distance string1 string2 output cost) (λ _, True).
Proof.
  unfold shared.distance.
  destruct string1; try apply frame_hraise.
  destruct string2; try apply frame_hraise.
  repeat first [apply frame_cost_not_real | apply frame_edit_path
               | apply frame_list_edits | frame_step].
Qed.

Lemma distance_call_frame c h l o :
  h !! l = Some o → (distance_call c h).2 !! l = Some o.
Proof.
  intros Hl. destruct (frame_distance (length h) (arg_string1 c) (arg_string2 c)
    (default (PyStr "both") (arg_output c)) (cost_ref c) h (Nat.le_refl _))
    as (_ & Hsame & _).
  unfold distance_call. rewrite Hsame; [done|]. by eapply lookup_lt_Some.
Qed.

Lemma distance_call_length c h : (length h ≤ length (distance_call c h).2)%nat.
Proof.
  by destruct (frame_distance (length h) (arg_string1 c) (arg_string2 c)
    (default (PyStr "both") (arg_output c)) (cost_ref c) h (Nat.le_refl _))
    as (? & _ & _).
Qed.

Lemma run_calls_frame cs h l o :
  h !! l = Some o → (run_calls cs h).2 !! l = Some o.
Proof.
  revert h. induction cs as [|c cs IH]; intros h Hl; simpl; [done|].
  destruct (run_calls cs (distance_call c h).2) as [rs h'] eqn:Hrun. simpl.
  change h' with (rs, h').2. rewrite <- Hrun.
  by apply IH, distance_call_frame.
Qed.

(** *** What a call returns

    The statements run on the heap return what the functions on values
    return, applied to what the dict of [cost] holds under the members of
    [Move]. *)

Lemma hbind_returns {A B} (m : HM A) (k : A → HM B) h a h' :
  m h = (Returns a, h') → hbind m k h = k a h'.
Proof. unfold hbind. by intros ->. Qed.

Lemma hbind_raises {A B} (m : HM A) (k : A → HM B) h e h' :
  m h = (Raises e, h') → hbind m k h = (Raises e, h').
Proof. unfold hbind. by intros ->. Qed.

Lemma hbind_lift {A B} (x : Exc A) (k : A → HM B) h :
  hbind (lift x) k h
  = match x with inr a => k a h | inl e => (Raises e, h) end.
Proof. by destruct x. Qed.

Lemma getitem_move_run h d moves cells m :
  h !! d = Some (DictObj moves cells) →
  shared.getitem_move d m h = (outcome_of (getitem moves m), h).
Proof. intros Hd. unfold shared.getitem_move, hbind, deref. by rewrite Hd. Qed.

Lemma getitem_cell_run h d moves cells k :
  h !! d = Some (DictObj moves cells) →
  shared.getitem_cell d k h = (outcome_of (getitem cells k), h).
Proof. intros Hd. unfold shared.getitem_cell, hbind, deref. by rewrite Hd. Qed.

Lemma setitem_cell_run h d moves cells k tb :
  h !! d = Some (DictObj moves cells) →
  shared.setitem_cell d k tb h
  = (Returns tt, <[d := DictObj moves (<[k := tb]> cells)]> h).
Proof.
  intros Hd. unfold shared.setitem_cell, hbind, deref, store. by rewrite Hd, Hd.
Qed.

(** [sim d m f]: on the dict of reference [d], the statement [m] does what
    the function [f] does on its cells. *)
Definition sim (d : loc) (m : HM unit) (f : Distances → Exc Distances) : Prop :=
  ∀ h moves cells, h !! d = Some (DictObj moves cells) →
    match f cells with
    | inr cells' => m h = (Returns tt, <[d := DictObj moves cells']> h)
    | inl e => ∃ h', m h = (Raises e, h')
    end.

Lemma sim_hfor {A} d (xs : list A) body f :
  (∀ x, sim d (body x) (f x)) → sim d (hfor xs body) (for_in xs f).
Proof.
  intros Hbody. induction xs as [|x xs IH]; intros h moves cells Hd; simpl.
  - unfold hret. by rewrite list_insert_id.
  - specialize (Hbody x h moves cells Hd). cbn [bind].
    destruct (f x cells) as [e|cells1]; simpl.
    + destruct Hbody as [h' Hrun]. exists h'. by apply hbind_raises.
    + rewrite (hbind_returns _ _ _ _ _ Hbody).
      assert (<[d := DictObj moves cells1]> h !! d = Some (DictObj moves cells1))
        as Hd1 by (apply list_lookup_insert_eq; by eapply lookup_lt_Some).
      specialize (IH _ _ _ Hd1).
      destruct (for_in xs f cells1) as [e|cells2]; [done|].
      by rewrite IH, list_insert_insert_eq.
Qed.

Lemma hbind_getitem_cell {B} h d moves cells k (f : Traceback → HM B) :
  h !! d = Some (DictObj moves cells) →
  hbind (shared.getitem_cell d k) f h
  = match cells !! k with
    | Some tb => f tb h
    | None => (Raises KeyError, h)
    end.
Proof.
  intros Hd. unfold hbind at 1. rewrite (getitem_cell_run _ _ _ _ _ Hd).
  unfold getitem. by destruct (cells !! k).
Qed.

Lemma sim_del_body d del_cost i :
  sim d (shared.del_body d del_cost i) (del_body del_cost i).
Proof.
  intros h moves cells Hd. unfold shared.del_body, del_body.
  rewrite (hbind_getitem_cell _ _ _ _ _ _ Hd). unfold getitem.
  destruct (cells !! (i, 0%nat)) as [prev|] eqn:Hprev; simpl; [|by eexists].
  rewrite hbind_lift.
  destruct (py_add (tb_cost prev) del_cost) as [e|c]; simpl; [by eexists|].
  rewrite (hbind_getitem_cell _ _ _ _ _ _ Hd), Hprev.
  by rewrite (setitem_cell_run _ _ _ _ _ _ Hd).
Qed.

Lemma sim_ins_body d ins_cost j :
  sim d (shared.ins_body d ins_cost j) (ins_body ins_cost j).
Proof.
  intros h moves cells Hd. unfold shared.ins_body, ins_body.
  rewrite (hbind_getitem_cell _ _ _ _ _ _ Hd). unfold getitem.
  destruct (cells !! (0%nat, j)) as [prev|] eqn:Hprev; simpl; [|by eexists].
  rewrite hbind_lift.
  destruct (py_add (tb_cost prev) ins_cost) as [e|c]; simpl; [by eexists|].
  rewrite (hbind_getitem_cell _ _ _ _ _ _ Hd), Hprev.
  by rewrite (setitem_cell_run _ _ _ _ _ _ Hd).
Qed.

Lemma sim_cell_body d s1 s2 cm ci cd cs i j :
  sim d (shared.cell_body d s1 s2 cm ci cd cs i j) (cell_body s1 s2 cm ci cd cs i j).
Proof.
  intros h moves cells Hd. unfold shared.cell_body, cell_body.
  rewrite hbind_lift.
  destruct (str_index s1 i) as [e|a]; cbn [bind ret raise]; [by eexists|].
  rewrite hbind_lift.
  destruct (str_index s2 j) as [e|b]; cbn [bind ret raise]; [by eexists|].
  rewrite (hbind_getitem_cell _ _ _ _ _ _ Hd). unfold getitem.
  destruct (cells !! (i, j)) as [diag|]; cbn [bind ret raise]; [|by eexists].
  rewrite (hbind_getitem_cell _ _ _ _ _ _ Hd).
  destruct (cells !! ((i + 1)%nat, j)) as [left|]; cbn [bind ret raise]; [|by eexists].
  rewrite (hbind_getitem_cell _ _ _ _ _ _ Hd).
  destruct (cells !! (i, (j + 1)%nat)) as [up|]; cbn [bind ret raise]; [|by eexists].
  rewrite hbind_lift.
  match goal with
  | |- context [_best ?x ?y ?z] => destruct (_best x y z) as [e|cell]
  end; cbn [bind ret raise]; [by eexists|].
  by rewrite (setitem_cell_run _ _ _ _ _ _ Hd).
Qed.

(** The cells of the dict [_edit_path] has made when it returns or
    raises, as [_edit_path_matrix] computes them. *)
Lemma hbind_getitem_move {B} h d moves cells m (f : PyVal → HM B) :
  h !! d = Some (DictObj moves cells) →
  hbind (shared.getitem_move d m) f h
  = match moves !! m with
    | Some v => f v h
    | None => (Raises KeyError, h)
    end.
Proof.
  intros Hd. unfold hbind at 1. rewrite (getitem_move_run _ _ _ _ _ Hd).
  unfold getitem. by destruct (moves !! m).
Qed.

Lemma edit_path_run h cost moves cells s1 s2 :
  h !! cost = Some (DictObj moves cells) →
  (shared._edit_path s1 s2 cost h).1 = outcome_of (_edit_path s1 s2 moves).
Proof.
  intros Hc. unfold shared._edit_path, _edit_path, _edit_path_matrix, getitem.
  rewrite (hbind_getitem_move _ _ _ _ _ _ Hc).
  destruct (moves !! MATCH) as [match_cost|]; simpl; [|done].
  rewrite (hbind_getitem_move _ _ _ _ _ _ Hc).
  destruct (moves !! INS) as [ins_cost|]; simpl; [|done].
  rewrite (hbind_getitem_move _ _ _ _ _ _ Hc).
  destruct (moves !! DEL) as [del_cost|]; simpl; [|done].
  rewrite (hbind_getitem_move _ _ _ _ _ _ Hc).
  destruct (moves !! SUBST) as [subst_cost|]; simpl; [|done].
  rewrite (hbind_getitem_move _ _ _ _ _ _ Hc).
  destruct (moves !! INITIAL) as [initial_cost|]; simpl; [|done].
  unfold hbind at 1, alloc.
  set (d := length h).
  assert ((h ++ [DictObj ∅ ∅]) !! d = Some (DictObj ∅ ∅)) as Hd0
    by (unfold d; by rewrite lookup_app_r, Nat.sub_diag).
  rewrite (hbind_returns _ _ _ _ _ (setitem_cell_run _ _ _ _ _ _ Hd0)).
  set (cells0 := <[(0%nat, 0%nat) := mkTraceback initial_cost INITIAL None]> ∅).
  set (h0 := <[d := DictObj ∅ cells0]> (h ++ [DictObj ∅ ∅])).
  assert (h0 !! d = Some (DictObj ∅ cells0)) as Hd1
    by (apply list_lookup_insert_eq; by eapply lookup_lt_Some).
  pose proof (sim_hfor d (range 0 (String.length s1)) _ _
                (sim_del_body d del_cost) h0 _ _ Hd1) as H1.
  destruct (for_in (range 0 (String.length s1)) (del_body del_cost) cells0)
    as [e|cells1]; simpl.
  { destruct H1 as [h' H1]. by rewrite (hbind_raises _ _ _ _ _ H1). }
  rewrite (hbind_returns _ _ _ _ _ H1).
  set (h1 := <[d := DictObj ∅ cells1]> h0) in *.
  assert (h1 !! d = Some (DictObj ∅ cells1)) as Hd2
    by (apply list_lookup_insert_eq; by eapply lookup_lt_Some).
  pose proof (sim_hfor d (range 0 (String.length s2)) _ _
                (sim_ins_body d ins_cost) h1 _ _ Hd2) as H2.
  destruct (for_in (range 0 (String.length s2)) (ins_body ins_cost) cells1)
    as [e|cells2]; simpl.
  { destruct H2 as [h' H2]. by rewrite (hbind_raises _ _ _ _ _ H2). }
  rewrite (hbind_returns _ _ _ _ _ H2).
  set (h2 := <[d := DictObj ∅ cells2]> h1) in *.
  assert (h2 !! d = Some (DictObj ∅ cells2)) as Hd3
    by (apply list_lookup_insert_eq; by eapply lookup_lt_Some).
  pose proof (sim_hfor d (range 0 (String.length s1)) _ _
                (λ i, sim_hfor d (range 0 (String.length s2)) _ _
                        (sim_cell_body d s1 s2 match_cost ins_cost del_cost
                           subst_cost i)) h2 _ _ Hd3) as H3.
  simpl in H3.
  destruct (for_in (range 0 (String.length s1)) _ cells2) as [e|cells3]; simpl.
  { destruct H3 as [h' H3]. by rewrite (hbind_raises _ _ _ _ _ H3). }
  rewrite (hbind_returns _ _ _ _ _ H3).
  set (h3 := <[d := DictObj ∅ cells3]> h2) in *.
  assert (h3 !! d = Some (DictObj ∅ cells3)) as Hd4
    by (apply list_lookup_insert_eq; by eapply lookup_lt_Some).
  by rewrite (getitem_cell_run _ _ _ _ _ Hd4).
Qed.

(** [_list_edits] on the heap makes the list [_list_edits] returns. *)
Lemma list_insert_0_run h l items m :
  h !! l = Some (ListObj items) →
  shared.list_insert_0 l m h = (Returns tt, <[l := ListObj (m :: items)]> h).
Proof.
  intros Hl. unfold shared.list_insert_0, hbind, deref, store. by rewrite Hl, Hl.
Qed.

Lemma list_edits_loop_run tb h l items :
  h !! l = Some (ListObj items) →
  shared._list_edits_loop tb l h
  = (Returns tt, <[l := ListObj (_list_edits_loop tb items)]> h).
Proof.
  revert h items.
  induction tb as [c m|c m parent IH] using Traceback_chain_ind;
    intros h items Hl; simpl.
  - unfold hret. by rewrite list_insert_id.
  - rewrite (hbind_returns _ _ _ _ _ (list_insert_0_run _ _ _ m Hl)).
    rewrite (IH _ (m :: items)), ?list_insert_insert_eq; [done|].
    apply list_lookup_insert_eq. by eapply lookup_lt_Some.
Qed.

Lemma list_edits_run tb h :
  ∃ h', shared._list_edits tb h = (Returns (length h), h')
        ∧ read_list h' (length h) = Some (_list_edits tb).
Proof.
  assert ((h ++ [ListObj []]) !! length h = Some (ListObj [])) as Hl
    by (by rewrite lookup_app_r, Nat.sub_diag).
  eexists. unfold shared._list_edits. unfold hbind at 1, alloc.
  rewrite (hbind_returns _ _ _ _ _ (list_edits_loop_run tb _ _ _ Hl)).
  split; [done|]. unfold read_list.
  rewrite list_lookup_insert_eq by (by eapply lookup_lt_Some). done.
Qed.

Lemma cost_not_real_run h cost moves cells :
  h !! cost = Some (DictObj moves cells) →
  shared.cost_not_real cost h = (outcome_of (cost_not_real moves), h).
Proof.
  intros Hc. unfold shared.cost_not_real, cost_not_real, getitem.
  rewrite (hbind_getitem_move _ _ _ _ _ _ Hc).
  destruct (moves !! MATCH) as [m|]; simpl; [|done].
  destruct (is_real m); simpl; [|done].
  rewrite (hbind_getitem_move _ _ _ _ _ _ Hc).
  destruct (moves !! INS) as [i|]; simpl; [|done].
  destruct (is_real i); simpl; [|done].
  rewrite (hbind_getitem_move _ _ _ _ _ _ Hc).
  destruct (moves !! DEL) as [d|]; simpl; [|done].
  destruct (is_real d); simpl; [|done].
  rewrite (hbind_getitem_move _ _ _ _ _ _ Hc).
  by destruct (moves !! SUBST) as [s|].
Qed.

(** A call on a dict: what the caller sees is what [distance] returns on
    what the dict holds under the members of [Move]. *)
Lemma distance_run h cost moves cells string1 string2 output :
  h !! cost = Some (DictObj moves cells) →
  observe (shared.distance string1 string2 output cost h)
  = Some (distance string1 string2 output moves).
Proof.
  intros Hc. unfold shared.distance, distance.
  destruct string1 as [| |s1|]; try done.
  destruct string2 as [| |s2|]; try done.
  destruct (negb (py_eq output (PyStr "both")) && _ && _); [done|].
  unfold hbind at 1. rewrite (cost_not_real_run _ _ _ _ Hc).
  destruct (cost_not_real moves) as [e|[|]]; simpl; [done..|].
  pose proof (edit_path_run h cost moves cells s1 s2 Hc) as Hrun.
  unfold hbind at 1.
  destruct (shared._edit_path s1 s2 cost h) as [r h1]. simpl in Hrun. subst r.
  destruct (_edit_path s1 s2 moves) as [e|results]; simpl; [done|].
  destruct (list_edits_run results h1) as (h2 & Hl & Hread).
  destruct (py_eq output (PyStr "distance")); [done|].
  destruct (py_eq output (PyStr "edits"));
    rewrite (hbind_returns _ _ _ _ _ Hl); unfold observe, hret; simpl;
    by rewrite Hread.
Qed.

(** A call on a reference that names a list, or no object. *)
Lemma hbind_getitem_move_list {B} h d items m (f : PyVal → HM B) :
  h !! d = Some (ListObj items) →
  hbind (shared.getitem_move d m) f h = (Raises TypeError, h).
Proof.
  intros Hd. unfold hbind at 1, shared.getitem_move, hbind, deref. by rewrite Hd.
Qed.

Lemma hbind_getitem_move_none {B} h d m (f : PyVal → HM B) :
  h !! d = None →
  hbind (shared.getitem_move d m) f h = (NoObject, h).
Proof.
  intros Hd. unfold hbind at 1, shared.getitem_move, hbind, deref. by rewrite Hd.
Qed.

(** What the arguments alone decide: the outcome of the checks made before
    [cost] is used. *)
Definition checks_before_cost (string1 string2 output : PyVal) : option PyExc :=
  match string1, string2 with
  | PyStr _, PyStr _ =>
    if negb (py_eq output (PyStr "both")) && negb (py_eq output (PyStr "distance"))
       && negb (py_eq output (PyStr "edits"))
    then Some InvalidOutputModeError else None
  | _, _ => Some InputTypeError
  end.

Lemma distance_run_list h cost items string1 string2 output :
  h !! cost = Some (ListObj items) →
  shared.distance string1 string2 output cost h
  = (Raises (default TypeError (checks_before_cost string1 string2 output)), h).
Proof.
  intros Hc. unfold shared.distance, checks_before_cost.
  destruct string1 as [| |s1|]; try done.
  destruct string2 as [| |s2|]; try done.
  destruct (negb (py_eq output (PyStr "both")) && _ && _); [done|].
  unfold hbind at 1, shared.cost_not_real.
  by rewrite (hbind_getitem_move_list _ _ _ _ _ Hc).
Qed.

Lemma distance_run_none h cost string1 string2 output :
  h !! cost = None →
  shared.distance string1 string2 output cost h
  = (from_option Raises NoObject (checks_before_cost string1 string2 output), h).
Proof.
  intros Hc. unfold shared.distance, checks_before_cost.
  destruct string1 as [| |s1|]; try done.
  destruct string2 as [| |s2|]; try done.
  destruct (negb (py_eq output (PyStr "both")) && _ && _); [done|].
  unfold hbind at 1, shared.cost_not_real.
  by rewrite (hbind_getitem_move_none _ _ _ _ Hc).
Qed.

(** What the caller sees of a call depends on the heap only through the
    object of [cost]. *)
Lemma observe_distance_call c h h' :
  h' !! cost_ref c = h !! cost_ref c →
  observe (distance_call c h') = observe (distance_call c h).
Proof.
  intros Heq. unfold distance_call.
  destruct (h !! cost_ref c) as [[moves cells|items]|] eqn:Hc.
  - by rewrite (distance_run _ _ _ _ _ _ _ Heq), (distance_run _ _ _ _ _ _ _ Hc).
  - by rewrite (distance_run_list _ _ _ _ _ _ Heq), (distance_run_list _ _ _ _ _ _ Hc).
  - rewrite (distance_run_none _ _ _ _ _ Heq), (distance_run_none _ _ _ _ _ Hc).
    by destruct (checks_before_cost _ _ _).
Qed.

Lemma observe_distance_call_some c h :
  is_Some (h !! cost_ref c) → is_Some (observe (distance_call c h)).
Proof.
  intros [[moves cells|items] Hc]; unfold distance_call.
  - by rewrite (distance_run _ _ _ _ _ _ _ Hc).
  - by rewrite (distance_run_list _ _ _ _ _ _ Hc).
Qed.

Lemma run_calls_results_from cs h0 h :
  Forall (λ c, is_Some (h0 !! cost_ref c)) cs →
  (∀ l o, h0 !! l = Some o → h !! l = Some o) →
  (run_calls cs h).1 = map (λ c, observe (distance_call c h0)) cs.
Proof.
  intros Hcs. revert h.
  induction Hcs as [|c cs [o Hc] _ IH]; intros h Hext; simpl; [done|].
  destruct (run_calls cs (distance_call c h).2) as [rs h'] eqn:Hrun. simpl.
  f_equal.
  - apply observe_distance_call. by rewrite Hc, (Hext _ _ Hc).
  - change rs with (rs, h').1. rewrite <- Hrun. apply IH.
    intros l o' Hl. by apply distance_call_frame, Hext.
Qed.

Lemma run_calls_results cs h :
  Forall (λ c, is_Some (h !! cost_ref c)) cs →
  (run_calls cs h).1 = map (λ c, observe (distance_call c h)) cs.
Proof. intros Hcs. by apply run_calls_results_from. Qed.

(** C10. A call, whether it returns or raises, leaves every object that
    existed before it as it was: the dict of [cost] and every other dict,
    the one made for the default of the parameter included. The dicts and
    lists a call writes into are the ones it has made itself. So, when the
    references of the calls name objects: a call returns or raises, a call
    repeated with the same arguments shows the caller the same result, a
    sequence of calls leaves the objects as it found them, and each call of
    the sequence shows what it would have shown in the heap the sequence
    started from. *)
Theorem calls_leave_cost_unchanged (c : Call) (cs : list Call) (h : Heap) :
  Forall (λ c, is_Some (h !! cost_ref c)) (c :: cs) →
  (∀ l o, h !! l = Some o → (distance_call c h).2 !! l = Some o)
  ∧ is_Some (observe (distance_call c h))
  ∧ observe (distance_call c (distance_call c h).2) = observe (distance_call c h)
  ∧ (∀ l o, h !! l = Some o → (run_calls cs h).2 !! l = Some o)
  ∧ (run_calls cs h).1 = map (λ c, observe (distance_call c h)) cs
  ∧ (run_calls [c; c] h).1
    = [observe (distance_call c h); observe (distance_call c h)].
Proof.
  intros Hall. pose proof (Forall_inv Hall) as [o Hc].
  pose proof (Forall_inv_tail Hall) as Hcs.
  assert (observe (distance_call c (distance_call c h).2)
          = observe (distance_call c h)) as Hrep.
  { apply observe_distance_call. rewrite Hc. by apply distance_call_frame. }
  split; [intros l o'; apply distance_call_frame|].
  split; [by apply observe_distance_call_some|].
  split; [done|].
  split; [intros l o'; apply run_calls_frame|].
  split; [by apply run_calls_results|].
  simpl. by rewrite Hrep.
Qed.

(** A heap with the default dict and a dict of a caller, with costs 0, 2,
    3 and 5. *)
Definition heap_two_dicts : Heap :=
  [DictObj default_cost ∅;
   DictObj {[ MATCH := PyInt 0; INS := PyInt 2; DEL := PyInt 3; SUBST := PyInt 5;
              INITIAL := PyInt 0 ]} ∅].

Definition call_default : Call :=
  mkCall (PyStr "foo") (PyStr "fou") None None.

Definition call_own_costs : Call :=
  mkCall (PyStr "foo") (PyStr "fou") (Some (PyStr "distance")) (Some 1%nat).

Definition call_bad_mode : Call :=
  mkCall (PyStr "foo") (PyStr "fou") (Some (PyStr "cost")) None.

Lemma calls_leave_cost_unchanged_witness :
  Forall (λ c, is_Some (heap_two_dicts !! cost_ref c))
    (call_default :: [call_own_costs; call_bad_mode])
  ∧ (∀ l o, heap_two_dicts !! l = Some o →
       (distance_call call_default heap_two_dicts).2 !! l = Some o)
  ∧ observe (distance_call call_default heap_two_dicts)
    = Some (inr (RetBoth (PyInt 1) [MATCH; MATCH; SUBST]))
  ∧ (run_calls [call_own_costs; call_bad_mode] heap_two_dicts).1
    = [Some (inr (RetNum (PyInt 5))); Some (inl InvalidOutputModeError)].
Proof.
  assert (Forall (λ c, is_Some (heap_two_dicts !! cost_ref c))
            (call_default :: [call_own_costs; call_bad_mode])) as Hall.
  { repeat constructor; by eexists. }
  destruct (calls_leave_cost_unchanged call_default
              [call_own_costs; call_bad_mode] heap_two_dicts Hall)
    as (Hframe & _ & _ & _ & Hres & _).
  split; [exact Hall|]. split; [exact Hframe|].
  split; [vm_compute; reflexivity|].
  rewrite Hres. vm_compute. reflexivity.
Defined.

(** The default dict after calls that share it, one of which raises. *)
Example default_dict_after_calls :
  (run_calls [call_default; call_bad_mode; call_default] initial_heap).2 !! default_loc
  = Some (DictObj default_cost ∅)
  ∧ (run_calls [call_default; call_bad_mode; call_default] initial_heap).1
    = [Some (inr (RetBoth (PyInt 1) [MATCH; MATCH; SUBST]));
       Some (inl InvalidOutputModeError);
       Some (inr (RetBoth (PyInt 1) [MATCH; MATCH; SUBST]))].
Proof. split; vm_compute; reflexivity. Qed.

(** * The traceback of [string_distance.py]

    [string_distance.py] has, beside [sdist], a second engine with fixed
    costs: [edit_path], which fills a dict of [Traceback] as [_edit_path]
    does but chooses with [best], and [extract_path], which walks the chain
    back until it meets the move [INITIAL]. The file declares its own
    classes [Move] and [Traceback], with the text of those of
    [brew_distance.py]; they are different classes, and no member of one
    [Move] equals a member of the other. The module below keeps them apart
    from the types of [brew_distance.py]. *)

Module string_distance.

Inductive Move : Type := MATCH | INS | DEL | SUBST | INITIAL.

#[global] Instance sd_move_eq_dec : EqDecision Move.
Proof. solve_decision. Defined.

(** [class Traceback(NamedTuple)]: cost, move, traceback. *)
#[warnings="-register-all"] Inductive Traceback : Type :=
  mkTraceback {
    tb_cost : PyVal;
    tb_move : Move;
    tb_traceback : option Traceback
  }.

Abbreviation Distances := (gmap (nat * nat) Traceback).

(** ** [best] *)

Definition best (sub_move ins_move del_move : Traceback) : Exc Traceback :=
  let chosen := sub_move in
  lt_ins <- py_lt (tb_cost ins_move) (tb_cost chosen) ;;
  let chosen := if lt_ins : bool then ins_move else chosen in
  lt_del <- py_lt (tb_cost del_move) (tb_cost chosen) ;;
  let chosen := if lt_del : bool then del_move else chosen in
  ret chosen.

(** ** [extract_path] *)

(** The [while] loop: [result.append((tb.cost, tb.move))] and
    [tb = tb.traceback] while [tb.move != Move.INITIAL]; the test on a
    [tb] that has become [None] raises [AttributeError]. *)
Fixpoint extract_path_loop (tb : Traceback) (result : list (PyVal * Move))
  : Exc (list (PyVal * Move)) :=
  match tb with
  | mkTraceback c m parent =>
    if negb (bool_decide (m = INITIAL)) then
      match parent with
      | Some tb' => extract_path_loop tb' (result ++ [(c, m)])
      | None => raise AttributeError
      end
    else ret result
  end.

Definition extract_path (tb : Traceback) : Exc (list (PyVal * Move)) :=
  result <- extract_path_loop tb [] ;;
  let ops := rev result in
  ret ops.

(** ** [edit_path] *)

(** The body of the first loop (deletions, column 0). *)
Definition edit_path_del_body (del_cost : PyVal) (i : nat) (distances : Distances)
  : Exc Distances :=
  prev <- getitem distances (i, 0%nat) ;;
  let so_far := tb_cost prev in
  c <- py_add so_far del_cost ;;
  prev' <- getitem distances (i, 0%nat) ;;
  ret (<[(i + 1, 0)%nat := mkTraceback c DEL (Some prev')]> distances).

(** The body of the second loop (insertions, row 0). *)
Definition edit_path_ins_body (ins_cost : PyVal) (j : nat) (distances : Distances)
  : Exc Distances :=
  prev <- getitem distances (0%nat, j) ;;
  let so_far := tb_cost prev in
  c <- py_add so_far ins_cost ;;
  prev' <- getitem distances (0%nat, j) ;;
  ret (<[(0, j + 1)%nat := mkTraceback c INS (Some prev')]> distances).

(** The body of the inner loop. *)
Definition edit_path_cell_body (string1 string2 : string)
    (match_cost ins_cost del_cost subst_cost : PyVal)
    (i j : nat) (distances : Distances) : Exc Distances :=
  a <- str_index string1 i ;;
  b <- str_index string2 j ;;
  let subst := if bool_decide (a = b) then match_cost else subst_cost in
  diag <- getitem distances (i, j) ;;
  left <- getitem distances (i + 1, j)%nat ;;
  up <- getitem distances (i, j + 1)%nat ;;
  cell <- best
    (mkTraceback subst (if py_truthy subst then SUBST else MATCH) (Some diag))
    (mkTraceback ins_cost INS (Some left))
    (mkTraceback del_cost DEL (Some up)) ;;
  ret (<[(i + 1, j + 1)%nat := cell]> distances).

(** Everything of [edit_path] before its [return]: the filled dict. *)
Definition edit_path_matrix (string1 string2 : string) : Exc Distances :=
  let len1 := String.length string1 in
  let len2 := String.length string2 in
  let match_cost := PyInt 0 in
  let ins_cost := PyInt 1 in
  let del_cost := PyInt 1 in
  let subst_cost := PyInt 1 in
  let initial_cost := PyInt 0 in
  let distances : Distances := ∅ in
  let distances := <[(0, 0)%nat := mkTraceback initial_cost INITIAL None]> distances in
  distances <- for_in (range 0 len1) (edit_path_del_body del_cost) distances ;;
  distances <- for_in (range 0 len2) (edit_path_ins_body ins_cost) distances ;;
  for_in (range 0 len1)
    (λ i, for_in (range 0 len2)
       (edit_path_cell_body string1 string2 match_cost ins_cost del_cost subst_cost i))
    distances.

Definition edit_path (string1 string2 : string) : Exc (list (PyVal * Move)) :=
  distances <- edit_path_matrix string1 string2 ;;
  last <- getitem distances (String.length string1, String.length string2) ;;
  extract_path last.

End string_distance.

Module SD := string_distance.

Example edit_path_foo_foot :
  SD.edit_path "foo" "foot"
  = inr [(PyInt 1, SD.INS); (PyInt 1, SD.SUBST); (PyInt 0, SD.MATCH);
         (PyInt 1, SD.SUBST)].
Proof. vm_compute. reflexivity. Qed.

Example edit_path_foo_foo :
  SD.edit_path "foo" "foo"
  = inr [(PyInt 0, SD.MATCH); (PyInt 0, SD.MATCH); (PyInt 0, SD.MATCH)].
Proof. vm_compute. reflexivity. Qed.

Example edit_path_foot_fo :
  SD.edit_path "foot" "fo"
  = inr [(PyInt 1, SD.DEL); (PyInt 2, SD.DEL); (PyInt 1, SD.SUBST);
         (PyInt 1, SD.SUBST)].
Proof. vm_compute. reflexivity. Qed.

(** The kind of edit a member of [string_distance.Move] stands for, as the
    member of [brew_distance.Move] with the same name. *)
Definition move_kind (m : SD.Move) : Move :=
  match m with
  | SD.MATCH => MATCH
  | SD.INS => INS
  | SD.DEL => DEL
  | SD.SUBST => SUBST
  | SD.INITIAL => INITIAL
  end.

(** ** The chain seen by [extract_path] *)

(** Induction along a chain of [string_distance.Traceback]. *)
Lemma sd_chain_ind (P : SD.Traceback → Prop) :
  (∀ c m, P (SD.mkTraceback c m None)) →
  (∀ c m parent, P parent → P (SD.mkTraceback c m (Some parent))) →
  ∀ tb, P tb.
Proof.
  intros Hnone Hsome. fix IH 1. intros [c m [parent|]].
  - apply Hsome, IH.
  - apply Hnone.
Qed.

(** The pairs [(cost, move)] of the nodes met when walking back from a
    node, the node itself first and the end of the chain last. *)
Fixpoint nodes_back (tb : SD.Traceback) : list (PyVal * SD.Move) :=
  match tb with
  | SD.mkTraceback c m (Some parent) => (c, m) :: nodes_back parent
  | SD.mkTraceback c m None => [(c, m)]
  end.

(** The pairs before the first one whose move is [INITIAL]; [None] when
    there is no such pair. *)
Fixpoint before_initial (l : list (PyVal * SD.Move))
  : option (list (PyVal * SD.Move)) :=
  match l with
  | [] => None
  | (c, m) :: l' =>
    if bool_decide (m = SD.INITIAL) then Some []
    else cons (c, m) <$> before_initial l'
  end.

Lemma extract_path_loop_spec tb acc :
  SD.extract_path_loop tb acc
  = match before_initial (nodes_back tb) with
    | Some l => inr (acc ++ l)
    | None => inl AttributeError
    end.
Proof.
  revert acc. induction tb as [c m|c m parent IH] using sd_chain_ind;
    intros acc; simpl.
  - case_bool_decide; simpl; [by rewrite app_nil_r | done].
  - case_bool_decide; simpl; [by rewrite app_nil_r|].
    rewrite IH. destruct (before_initial (nodes_back parent)); simpl; [|done].
    by rewrite <- app_assoc.
Qed.

Lemma extract_path_spec tb :
  SD.extract_path tb
  = match before_initial (nodes_back tb) with
    | Some l => inr (rev l)
    | None => inl AttributeError
    end.
Proof.
  unfold SD.extract_path. rewrite extract_path_loop_spec.
  by destruct (before_initial (nodes_back tb)).
Qed.

Lemma before_initial_none l :
  Forall (λ p, p.2 ≠ SD.INITIAL) l → before_initial l = None.
Proof.
  induction 1 as [|[c m] l Hm _ IH]; simpl; [done|].
  rewrite bool_decide_eq_false_2 by done. by rewrite IH.
Qed.

Lemma before_initial_app l c rest :
  Forall (λ p, p.2 ≠ SD.INITIAL) l →
  before_initial (l ++ (c, SD.INITIAL) :: rest) = Some l.
Proof.
  induction 1 as [|[c' m] l Hm _ IH]; simpl; [done|].
  rewrite bool_decide_eq_false_2 by done. by rewrite IH.
Qed.

(** X1. A chain on which no node has the move [INITIAL] makes
    [extract_path] raise [AttributeError]: the walk runs off the end of
    the chain. *)
Theorem extract_path_without_initial (tb : SD.Traceback) :
  Forall (λ p, p.2 ≠ SD.INITIAL) (nodes_back tb) →
  SD.extract_path tb = inl AttributeError.
Proof.
  intros H. by rewrite extract_path_spec, (before_initial_none _ H).
Qed.

(** A chain that ends without a node [INITIAL]. *)
Definition chain_without_initial : SD.Traceback :=
  SD.mkTraceback (PyInt 1) SD.DEL (Some (SD.mkTraceback (PyInt 0) SD.MATCH None)).

Lemma extract_path_without_initial_witness :
  Forall (λ p : PyVal * SD.Move, p.2 ≠ SD.INITIAL) (nodes_back chain_without_initial)
  ∧ SD.extract_path chain_without_initial = inl AttributeError.
Proof.
  assert (Forall (λ p : PyVal * SD.Move, p.2 ≠ SD.INITIAL)
            (nodes_back chain_without_initial)) as H.
  { simpl. repeat constructor; discriminate. }
  split; [exact H|]. exact (extract_path_without_initial _ H).
Defined.

(** X2. [extract_path] stops at the first node whose move is [INITIAL]: it
    returns the pairs of the nodes before it, the one nearest to that node
    first; what lies behind that node is not reported. *)
Theorem extract_path_stops_at_initial (tb : SD.Traceback)
    (l rest : list (PyVal * SD.Move)) (c : PyVal) :
  nodes_back tb = l ++ (c, SD.INITIAL) :: rest →
  Forall (λ p, p.2 ≠ SD.INITIAL) l →
  SD.extract_path tb = inr (rev l).
Proof.
  intros Hn Hl. by rewrite extract_path_spec, Hn, (before_initial_app _ _ _ Hl).
Qed.

(** A chain with a node [INITIAL] that is not its end. *)
Definition chain_initial_inside : SD.Traceback :=
  SD.mkTraceback (PyInt 2) SD.INS
    (Some (SD.mkTraceback (PyInt 1) SD.INITIAL
             (Some (SD.mkTraceback (PyInt 0) SD.DEL None)))).

Lemma extract_path_stops_at_initial_witness :
  nodes_back chain_initial_inside
  = [(PyInt 2, SD.INS)] ++ (PyInt 1, SD.INITIAL) :: [(PyInt 0, SD.DEL)]
  ∧ Forall (λ p : PyVal * SD.Move, p.2 ≠ SD.INITIAL) [(PyInt 2, SD.INS)]
  ∧ SD.extract_path chain_initial_inside = inr (rev [(PyInt 2, SD.INS)]).
Proof.
  assert (Forall (λ p : PyVal * SD.Move, p.2 ≠ SD.INITIAL) [(PyInt 2, SD.INS)]) as H
    by (repeat constructor; discriminate).
  split; [reflexivity|]. split; [exact H|].
  exact (extract_path_stops_at_initial chain_initial_inside [(PyInt 2, SD.INS)]
           [(PyInt 0, SD.DEL)] (PyInt 1) eq_refl H).
Defined.

(** ** The matrix of [edit_path] in closed form

    [best] compares the [cost] fields of its three arguments, which are
    the increments 0 or 1 of the candidates, not totals; the increment of
    the diagonal candidate is never larger than the other two, so every
    interior cell is the diagonal candidate itself. *)

Lemma best_diagonal (subst : Z) (m : SD.Move) (diag left up : option SD.Traceback) :
  subst ≤ 1 →
  SD.best (SD.mkTraceback (PyInt subst) m diag) (SD.mkTraceback (PyInt 1) SD.INS left)
          (SD.mkTraceback (PyInt 1) SD.DEL up)
  = inr (SD.mkTraceback (PyInt subst) m diag).
Proof.
  intros Hle. unfold SD.best. simpl.
  rewrite (proj2 (Z.ltb_ge 1 subst)) by done. simpl.
  by rewrite (proj2 (Z.ltb_ge 1 subst)).
Qed.

(** The cells of row 0 and of column 0: their cost is the number of
    characters inserted or deleted so far. *)
Fixpoint rowE (t : list ascii) : SD.Traceback :=
  match t with
  | [] => SD.mkTraceback (PyInt 0) SD.INITIAL None
  | _ :: t' => SD.mkTraceback (PyInt (Z.of_nat (length t))) SD.INS (Some (rowE t'))
  end.

Fixpoint columnE (s : list ascii) : SD.Traceback :=
  match s with
  | [] => SD.mkTraceback (PyInt 0) SD.INITIAL None
  | _ :: s' => SD.mkTraceback (PyInt (Z.of_nat (length s))) SD.DEL (Some (columnE s'))
  end.

Definition sd_diag_move (subst : Z) : SD.Move :=
  if py_truthy (PyInt subst) then SD.SUBST else SD.MATCH.

Fixpoint cellE (s t : list ascii) : SD.Traceback :=
  match s, t with
  | a :: s', b :: t' =>
    SD.mkTraceback (PyInt (subst_of 0 1 a b)) (sd_diag_move (subst_of 0 1 a b))
      (Some (cellE s' t'))
  | [], _ => rowE t
  | _, [] => columnE s
  end.

Lemma cellE_nil_l t : cellE [] t = rowE t.
Proof. done. Qed.

Lemma cellE_nil_r s : cellE s [] = columnE s.
Proof. by destruct s. Qed.

Lemma rowE_cost t : SD.tb_cost (rowE t) = PyInt (Z.of_nat (length t)).
Proof. by destruct t. Qed.

Lemma columnE_cost s : SD.tb_cost (columnE s) = PyInt (Z.of_nat (length s)).
Proof. by destruct s. Qed.

Lemma subst_of_default_le a b : subst_of 0 1 a b ≤ 1.
Proof. unfold subst_of. case_bool_decide; lia. Qed.

Section edit_path_fill.
Variables string1 string2 : string.

Definition cellE_at (i j : nat) : SD.Traceback :=
  cellE (rprefix string1 i) (rprefix string2 j).

Lemma edit_path_del_body_spec (i : nat) (d : SD.Distances) :
  (i < String.length string1)%nat → d !! (i, 0%nat) = Some (cellE_at i 0) →
  SD.edit_path_del_body (PyInt 1) i d
  = inr (<[(i + 1, 0)%nat := cellE_at (i + 1) 0]> d).
Proof.
  intros Hi Hd. unfold SD.edit_path_del_body, cellE_at in *.
  destruct (rprefix_succ _ _ Hi) as (a & _ & ->).
  rewrite rprefix_0, cellE_nil_r in *.
  rewrite (getitem_Some _ _ _ Hd). cbn [bind].
  rewrite columnE_cost. cbn [py_add bind ret columnE length].
  do 4 f_equal. lia.
Qed.

Lemma edit_path_ins_body_spec (j : nat) (d : SD.Distances) :
  (j < String.length string2)%nat → d !! (0%nat, j) = Some (cellE_at 0 j) →
  SD.edit_path_ins_body (PyInt 1) j d
  = inr (<[(0, j + 1)%nat := cellE_at 0 (j + 1)]> d).
Proof.
  intros Hj Hd. unfold SD.edit_path_ins_body, cellE_at in *.
  destruct (rprefix_succ _ _ Hj) as (b & _ & ->).
  rewrite rprefix_0, cellE_nil_l in *.
  rewrite (getitem_Some _ _ _ Hd). cbn [bind].
  rewrite rowE_cost. cbn [py_add bind ret rowE length].
  do 4 f_equal. lia.
Qed.

Lemma edit_path_cell_body_spec (i j : nat) (d : SD.Distances) :
  (i < String.length string1)%nat → (j < String.length string2)%nat →
  d !! (i, j) = Some (cellE_at i j) →
  d !! ((i + 1)%nat, j) = Some (cellE_at (i + 1) j) →
  d !! (i, (j + 1)%nat) = Some (cellE_at i (j + 1)) →
  SD.edit_path_cell_body string1 string2 (PyInt 0) (PyInt 1) (PyInt 1) (PyInt 1) i j d
  = inr (<[(i + 1, j + 1)%nat := cellE_at (i + 1) (j + 1)]> d).
Proof.
  intros Hi Hj Hdiag Hleft Hup. unfold SD.edit_path_cell_body.
  destruct (rprefix_succ _ _ Hi) as (a & -> & Ha).
  destruct (rprefix_succ _ _ Hj) as (b & -> & Hb). cbn [bind].
  rewrite (getitem_Some _ _ _ Hdiag), (getitem_Some _ _ _ Hleft),
    (getitem_Some _ _ _ Hup). cbn [bind].
  replace (if bool_decide (a = b) then PyInt 0 else PyInt 1)
    with (PyInt (subst_of 0 1 a b)) by (unfold subst_of; by case_bool_decide).
  rewrite best_diagonal by apply subst_of_default_le. cbn [bind]. unfold ret.
  do 2 f_equal. unfold cellE_at. by rewrite Ha, Hb.
Qed.

Lemma edit_path_matrix_spec :
  ∃ d, SD.edit_path_matrix string1 string2 = inr d
       ∧ filled cellE_at (String.length string1) (String.length string2) d.
Proof.
  destruct (fill_spec cellE_at (String.length string1) (String.length string2)
              (SD.edit_path_del_body (PyInt 1)) (SD.edit_path_ins_body (PyInt 1))
              (SD.edit_path_cell_body string1 string2
                 (PyInt 0) (PyInt 1) (PyInt 1) (PyInt 1))
              edit_path_del_body_spec edit_path_ins_body_spec
              edit_path_cell_body_spec)
    as (dc & dr & d & Hc & Hr & Hd & Hfill).
  exists d. split; [|done]. unfold SD.edit_path_matrix.
  change (SD.mkTraceback (PyInt 0) SD.INITIAL None) with (cellE_at 0 0).
  rewrite Hc. cbn [bind]. rewrite Hr. cbn [bind]. exact Hd.
Qed.
End edit_path_fill.

(** X4. [edit_path] fills its dict without raising, and every interior
    cell [(i+1, j+1)] is the diagonal candidate as it was built: its cost
    is the increment (0 for equal characters, 1 otherwise), not a
    cumulative cost, its move is [MATCH] or [SUBST] accordingly, and its
    predecessor is the cell [(i, j)]. Insertions and deletions occur only
    in row 0 and column 0. *)
Theorem edit_path_interior_is_diagonal (s1 s2 : string) :
  ∃ distances : SD.Distances,
    SD.edit_path_matrix s1 s2 = inr distances
    ∧ ∀ i j : nat, (i < String.length s1)%nat → (j < String.length s2)%nat →
      ∃ (a b : ascii) (diag : SD.Traceback),
        String.get i s1 = Some a ∧ String.get j s2 = Some b
        ∧ distances !! (i, j) = Some diag
        ∧ distances !! ((i + 1)%nat, (j + 1)%nat)
          = Some (if bool_decide (a = b)
                  then SD.mkTraceback (PyInt 0) SD.MATCH (Some diag)
                  else SD.mkTraceback (PyInt 1) SD.SUBST (Some diag)).
Proof.
  destruct (edit_path_matrix_spec s1 s2) as (distances & Hrun & Hfill).
  exists distances. split; [done|]. intros i j Hlt1 Hlt2.
  destruct (rprefix_succ _ _ Hlt1) as (a & Ha & Hpa).
  destruct (rprefix_succ _ _ Hlt2) as (b & Hb & Hpb).
  exists a, b, (cellE_at s1 s2 i j).
  split. { unfold str_index, ret, raise in Ha. destruct (String.get i s1); congruence. }
  split. { unfold str_index, ret, raise in Hb. destruct (String.get j s2); congruence. }
  split; [apply Hfill; lia|].
  rewrite (Hfill (i + 1)%nat (j + 1)%nat) by lia. f_equal.
  unfold cellE_at. rewrite Hpa, Hpb. simpl. unfold subst_of.
  by case_bool_decide.
Qed.

(** ** What [edit_path] returns *)

(** [n] border steps with move [mv], with the cumulative costs 1 to [n]. *)
Definition border_ops (n : nat) (mv : SD.Move) : list (PyVal * SD.Move) :=
  map (λ k, (PyInt (Z.of_nat (k + 1)), mv)) (seq 0 n).

(** The step over a source and a target character. *)
Definition diag_op (a b : ascii) : PyVal * SD.Move :=
  if bool_decide (a = b) then (PyInt 0, SD.MATCH) else (PyInt 1, SD.SUBST).

(** The list [edit_path] returns: the surplus of the longer string is
    deleted or inserted at the front, the rest is stepped over character
    against character. *)
Definition edit_path_ops (s t : list ascii) : list (PyVal * SD.Move) :=
  border_ops (length s - length t) SD.DEL
  ++ border_ops (length t - length s) SD.INS
  ++ zip_with diag_op (drop (length s - length t) s) (drop (length t - length s) t).

(** The same list, last step first, on the strings read backwards. *)
Fixpoint border_back (n : nat) (mv : SD.Move) : list (PyVal * SD.Move) :=
  match n with
  | O => []
  | S n' => (PyInt (Z.of_nat n), mv) :: border_back n' mv
  end.

Fixpoint ops_back (s t : list ascii) : list (PyVal * SD.Move) :=
  match s, t with
  | a :: s', b :: t' => diag_op a b :: ops_back s' t'
  | [], _ => border_back (length t) SD.INS
  | _, [] => border_back (length s) SD.DEL
  end.

Lemma border_ops_rev n mv : rev (border_ops n mv) = border_back n mv.
Proof.
  unfold border_ops. induction n as [|n IH]; [done|].
  rewrite seq_S, map_app. cbn [map]. rewrite rev_unit, IH. simpl.
  by rewrite Nat.add_1_r.
Qed.

Lemma border_ops_length n mv : length (border_ops n mv) = n.
Proof. unfold border_ops. by rewrite length_map, length_seq. Qed.

Lemma edit_path_ops_snoc s t a b :
  edit_path_ops (s ++ [a]) (t ++ [b]) = edit_path_ops s t ++ [diag_op a b].
Proof.
  unfold edit_path_ops. rewrite !length_app. simpl.
  replace (length s + 1 - (length t + 1))%nat with (length s - length t)%nat by lia.
  replace (length t + 1 - (length s + 1))%nat with (length t - length s)%nat by lia.
  rewrite !drop_app_le by lia.
  rewrite zip_with_app by (rewrite !length_drop; lia).
  simpl. by rewrite <- !app_assoc.
Qed.

Lemma edit_path_ops_nil_l t : edit_path_ops [] t = border_ops (length t) SD.INS.
Proof.
  unfold edit_path_ops. simpl length. rewrite Nat.sub_0_r. simpl.
  by rewrite app_nil_r.
Qed.

Lemma edit_path_ops_nil_r s : edit_path_ops s [] = border_ops (length s) SD.DEL.
Proof.
  unfold edit_path_ops. simpl length. rewrite Nat.sub_0_r. simpl.
  rewrite drop_all. simpl. by rewrite app_nil_r.
Qed.

Lemma ops_back_spec s t : ops_back s t = rev (edit_path_ops (rev s) (rev t)).
Proof.
  revert t. induction s as [|a s IH]; intros t.
  - change (rev []) with (@nil ascii).
    rewrite edit_path_ops_nil_l, border_ops_rev, length_rev. by destruct t.
  - destruct t as [|b t].
    + change (rev []) with (@nil ascii).
      by rewrite edit_path_ops_nil_r, border_ops_rev, length_rev.
    + simpl. by rewrite edit_path_ops_snoc, rev_unit, IH.
Qed.

Lemma before_initial_row t :
  before_initial (nodes_back (rowE t)) = Some (border_back (length t) SD.INS).
Proof.
  induction t as [|b t IH]; [done|].
  cbn [rowE nodes_back before_initial].
  rewrite bool_decide_eq_false_2 by done. by rewrite IH.
Qed.

Lemma before_initial_column s :
  before_initial (nodes_back (columnE s)) = Some (border_back (length s) SD.DEL).
Proof.
  induction s as [|a s IH]; [done|].
  cbn [columnE nodes_back before_initial].
  rewrite bool_decide_eq_false_2 by done. by rewrite IH.
Qed.

Lemma before_initial_cellE s t :
  before_initial (nodes_back (cellE s t)) = Some (ops_back s t).
Proof.
  revert t. induction s as [|a s IH]; intros t.
  - rewrite cellE_nil_l, before_initial_row. by destruct t.
  - destruct t as [|b t].
    + rewrite cellE_nil_r. apply before_initial_column.
    + cbn [cellE nodes_back before_initial ops_back].
      rewrite IH. unfold diag_op, subst_of, sd_diag_move.
      destruct (bool_decide (a = b)); reflexivity.
Qed.

Lemma edit_path_spec (s t : string) :
  SD.edit_path s t = inr (edit_path_ops (chars s) (chars t)).
Proof.
  destruct (edit_path_matrix_spec s t) as (d & Hd & Hfill).
  unfold SD.edit_path. rewrite Hd. cbn [bind].
  rewrite (getitem_Some _ _ _ (Hfill _ _ (Nat.le_refl _) (Nat.le_refl _))).
  cbn [bind]. rewrite extract_path_spec. unfold cellE_at.
  rewrite !rprefix_all, before_initial_cellE, ops_back_spec.
  by rewrite !rev_involutive.
Qed.

(** X5. [edit_path] returns for all strings, and returns this list: the
    surplus of the longer string as deletions (or insertions) at the front,
    numbered by their cumulative cost, then one step per remaining pair of
    characters, [(0, MATCH)] when they are equal and [(1, SUBST)] when not.
    It never aligns the strings in any other way. *)
Theorem edit_path_returns (s t : string) :
  SD.edit_path s t = inr (edit_path_ops (chars s) (chars t)).
Proof. apply edit_path_spec. Qed.

(** The moves of a list of pairs, as kinds of edit. *)
Definition moves_of (ops : list (PyVal * SD.Move)) : list Move :=
  map (λ p, move_kind p.2) ops.

Lemma moves_of_rev ops : moves_of (rev ops) = rev (moves_of ops).
Proof. apply map_rev. Qed.

Lemma moves_of_length ops : length (moves_of ops) = length ops.
Proof. apply length_map. Qed.

Lemma border_back_moves n mv :
  moves_of (border_back n mv) = replicate n (move_kind mv).
Proof.
  induction n as [|n IH]; [done|].
  unfold moves_of in *. cbn [border_back map replicate]. by rewrite IH.
Qed.

Lemma script_all_ins t : script [] t (replicate (length t) INS).
Proof. induction t; simpl; auto. Qed.

Lemma script_all_del s : script s [] (replicate (length s) DEL).
Proof. induction s; simpl; auto. Qed.

Lemma ops_back_script s t : script s t (moves_of (ops_back s t)).
Proof.
  revert t. induction s as [|a s IH]; intros t.
  - replace (ops_back [] t) with (border_back (length t) SD.INS) by (by destruct t).
    rewrite border_back_moves. apply script_all_ins.
  - destruct t as [|b t].
    + cbn [ops_back]. rewrite border_back_moves. apply script_all_del.
    + cbn [ops_back]. unfold moves_of. cbn [map]. unfold diag_op.
      case_bool_decide as Hab.
      * subst b. apply script_match, IH.
      * by apply script_subst.
Qed.

Lemma edit_path_ops_script s t : script s t (moves_of (edit_path_ops s t)).
Proof.
  apply script_rev_iff. rewrite <- moves_of_rev.
  replace (rev (edit_path_ops s t)) with (ops_back (rev s) (rev t))
    by (by rewrite ops_back_spec, !rev_involutive).
  apply ops_back_script.
Qed.

Lemma edit_path_ops_length s t :
  length (edit_path_ops s t) = (length s `max` length t)%nat.
Proof.
  unfold edit_path_ops.
  rewrite !length_app, !border_ops_length, length_zip_with, !length_drop. lia.
Qed.

(** X6. The moves [edit_path] returns are an edit script from [string1] to
    [string2]: applied to [string1] from left to right they yield
    [string2]. There are as many of them as the longer string has
    characters. *)
Theorem edit_path_is_edit_script (s t : string) :
  ∃ ops : list (PyVal * SD.Move),
    SD.edit_path s t = inr ops
    ∧ edit_script (moves_of ops) (chars s) (chars t) = true
    ∧ apply_edits (moves_of ops) (chars s) (chars t) = Some (chars t)
    ∧ length ops = (String.length s `max` String.length t)%nat.
Proof.
  exists (edit_path_ops (chars s) (chars t)).
  split; [apply edit_path_spec|].
  pose proof (edit_path_ops_script (chars s) (chars t)) as Hscript.
  split; [by apply edit_script_iff|]. split; [by apply script_apply|].
  by rewrite edit_path_ops_length, !chars_length.
Qed.

(** X7. The script of [edit_path] is not a cheapest one in general: under
    the fixed costs (match 0, the others 1) it costs at least the number
    [sdist] returns, and it costs more for ["foo"] against ["foot"]. *)
Theorem edit_path_costs_at_least_sdist (s t : string) :
  (∃ (ops : list (PyVal * SD.Move)) (d : Z),
     SD.edit_path s t = inr ops ∧ sdist s t = inr d
     ∧ d ≤ edits_cost default_cost (moves_of ops))
  ∧ ∃ (ops : list (PyVal * SD.Move)) (d : Z),
      SD.edit_path "foo" "foot" = inr ops ∧ sdist "foo" "foot" = inr d
      ∧ d < edits_cost default_cost (moves_of ops).
Proof.
  split.
  - exists (edit_path_ops (chars s) (chars t)), (last_cost 0 1 1 1 0 s t).
    split; [apply edit_path_spec|]. split; [apply sdist_spec|].
    pose proof (last_cost_lower_bound default_cost 0 1 1 1 0 s t
                  (moves_of (edit_path_ops (chars s) (chars t))) default_cost_is) as H.
    rewrite Z.add_0_l in H. apply H, edit_script_iff, edit_path_ops_script.
  - exists [(PyInt 1, SD.INS); (PyInt 1, SD.SUBST); (PyInt 0, SD.MATCH);
            (PyInt 1, SD.SUBST)], 1.
    split; [apply edit_path_foo_foot|]. split; [by vm_compute|]. by vm_compute.
Qed.


(** * More on [brew_distance.py] *)

(** ** The edits returned are a cheapest script *)

Lemma recorded_zcost cell total label pred :
  recorded cell total label pred → zcost cell = total.
Proof. intros (Hc & _). unfold zcost. by rewrite Hc. Qed.

Lemma zcost_int z m p : zcost (mkTraceback (PyInt z) m p) = z.
Proof. done. Qed.

Lemma edits_cost_cons cost m es :
  edits_cost cost (m :: es) = cost_of cost m + edits_cost cost es.
Proof. done. Qed.

Section returned_script.
Variables ci cd cs c0 : Z.
Variable cost : CostDict.
Hypothesis Hcost : cost_is cost 0 ci cd cs c0.
Hypothesis ci_nonzero : ci ≠ 0.
Hypothesis cd_nonzero : cd ≠ 0.
Hypothesis cs_nonzero : cs ≠ 0.

(** The cost in a cell is the initial cost plus the costs of the moves
    recorded along its chain. *)
Lemma moves_back_cost s t :
  zcost (cellT 0 ci cd cs c0 s t)
  = c0 + edits_cost cost (moves_back (cellT 0 ci cd cs c0 s t)).
Proof.
  revert t. induction s as [|a s IHs]; intros t.
  - induction t as [|b t IHt]; [cbn; lia|].
    rewrite cellT_nil_cons. cbn [moves_back].
    rewrite zcost_int, edits_cost_cons, (cost_of_ins _ _ _ _ _ _ Hcost). lia.
  - induction t as [|b t IHt].
    + rewrite cellT_cons_nil. cbn [moves_back]. specialize (IHs []).
      rewrite zcost_int, edits_cost_cons, (cost_of_del _ _ _ _ _ _ Hcost). lia.
    + rewrite cellT_cons_cons.
      destruct (bestT_cases (subst_of 0 cs a b) (diag_move (subst_of 0 cs a b))
                  (cellT 0 ci cd cs c0 s t) ci INS (cellT 0 ci cd cs c0 (a :: s) t)
                  cd DEL (cellT 0 ci cd cs c0 s (b :: t)))
        as [Hr|[Hr|Hr]];
        rewrite (recorded_zcost _ _ _ _ Hr), (recorded_moves_back _ _ _ _ Hr),
          edits_cost_cons.
      * specialize (IHs t). unfold subst_of, diag_move. case_bool_decide as Hab.
        -- rewrite Z.add_0_l, Z.eqb_refl, (cost_of_match _ _ _ _ _ _ Hcost). lia.
        -- rewrite (proj2 (Z.eqb_neq _ _)) by lia. cbn [py_truthy].
           rewrite (proj2 (Z.eqb_neq cs 0)) by done. cbn [negb].
           rewrite (cost_of_subst _ _ _ _ _ _ Hcost). lia.
      * rewrite (proj2 (Z.eqb_neq _ _)) by lia.
        rewrite (cost_of_ins _ _ _ _ _ _ Hcost). lia.
      * specialize (IHs (b :: t)). rewrite (proj2 (Z.eqb_neq _ _)) by lia.
        rewrite (cost_of_del _ _ _ _ _ _ Hcost). lia.
Qed.
End returned_script.

(** X8. When matching is free and inserting, deleting and substituting
    each have a non-zero integer cost, the edits returned in mode ["both"]
    are an edit script from [string1] to [string2] that yields [string2]
    when applied, the distance returned is the initial cost plus the cost
    of that script, and no edit script is cheaper. *)
Theorem returned_edits_are_cheapest (s t : string) (cost : CostDict)
    (ci cd cs c0 : Z) :
  cost_is cost 0 ci cd cs c0 → ci ≠ 0 → cd ≠ 0 → cs ≠ 0 →
  ∃ (d : Z) (es : list Move),
    distance (PyStr s) (PyStr t) (PyStr "both") cost = inr (RetBoth (PyInt d) es)
    ∧ edit_script es (chars s) (chars t) = true
    ∧ apply_edits es (chars s) (chars t) = Some (chars t)
    ∧ d = c0 + edits_cost cost es
    ∧ ∀ es', edit_script es' (chars s) (chars t) = true →
             edits_cost cost es ≤ edits_cost cost es'.
Proof.
  intros Hcost Hi Hd Hs.
  exists (last_cost 0 ci cd cs c0 s t), (_list_edits (last_cell 0 ci cd cs c0 s t)).
  split; [by apply distance_mode_both|].
  assert (script (chars s) (chars t) (_list_edits (last_cell 0 ci cd cs c0 s t)))
    as Hscript.
  { rewrite _list_edits_spec. apply script_rev_iff. rewrite rev_involutive.
    by apply moves_back_script. }
  assert (last_cost 0 ci cd cs c0 s t
          = c0 + edits_cost cost (_list_edits (last_cell 0 ci cd cs c0 s t))) as Hsum.
  { rewrite _list_edits_spec, edits_cost_rev. unfold last_cost, D, last_cell.
    by apply moves_back_cost. }
  split; [by apply edit_script_iff|]. split; [by apply script_apply|].
  split; [done|]. intros es' Hes'.
  pose proof (last_cost_lower_bound _ _ _ _ _ _ _ _ _ Hcost Hes'). lia.
Qed.

Lemma returned_edits_are_cheapest_witness :
  cost_is default_cost 0 1 1 1 0 ∧ 1 ≠ 0
  ∧ ∃ (d : Z) (es : list Move),
      distance (PyStr "foolish") (PyStr "fools") (PyStr "both") default_cost
      = inr (RetBoth (PyInt d) es)
      ∧ edit_script es (chars "foolish") (chars "fools") = true
      ∧ apply_edits es (chars "foolish") (chars "fools") = Some (chars "fools")
      ∧ d = 0 + edits_cost default_cost es
      ∧ ∀ es', edit_script es' (chars "foolish") (chars "fools") = true →
               edits_cost default_cost es ≤ edits_cost default_cost es'.
Proof.
  assert (1 ≠ 0) as H by discriminate.
  split; [exact default_cost_is|]. split; [exact H|].
  exact (returned_edits_are_cheapest "foolish" "fools" default_cost 1 1 1 0
           default_cost_is H H H).
Defined.

(** ** One of the strings is empty *)

Lemma moves_back_row cm ci cd cs c0 t :
  moves_back (cellT cm ci cd cs c0 [] t) = replicate (length t) INS.
Proof.
  induction t as [|b t IH]; [done|].
  rewrite cellT_nil_cons. cbn [moves_back length replicate]. by rewrite IH.
Qed.

Lemma moves_back_column cm ci cd cs c0 s :
  moves_back (cellT cm ci cd cs c0 s []) = replicate (length s) DEL.
Proof.
  induction s as [|a s IH]; [done|].
  rewrite cellT_cons_nil. cbn [moves_back length replicate]. by rewrite IH.
Qed.

Lemma D_row cm ci cd cs c0 t :
  D cm ci cd cs c0 [] t = c0 + Z.of_nat (length t) * ci.
Proof.
  induction t as [|b t IH]; [rewrite D_nil_nil; simpl; lia|].
  rewrite D_nil_cons, IH. simpl length. lia.
Qed.

Lemma D_column cm ci cd cs c0 s :
  D cm ci cd cs c0 s [] = c0 + Z.of_nat (length s) * cd.
Proof.
  induction s as [|a s IH]; [rewrite D_nil_nil; simpl; lia|].
  rewrite D_cons_nil, IH. simpl length. lia.
Qed.

Lemma rev_replicate {A} n (x : A) : rev (replicate n x) = replicate n x.
Proof.
  induction n as [|n IH]; [done|]. simpl. rewrite IH.
  clear IH. induction n as [|n IH]; [done|]. simpl. by rewrite IH.
Qed.

(** X9. With integer costs, against the empty string the distance is the
    initial cost plus one delete cost per character of [string1], and the
    edits are that many [DEL]; from the empty string it is the initial cost
    plus one insert cost per character of [string2], and the edits are
    that many [INS]. These labels are never turned into [MATCH], even when
    the cost is 0. *)
Theorem distance_with_empty_string (s : string) (cost : CostDict)
    (cm ci cd cs c0 : Z) :
  cost_is cost cm ci cd cs c0 →
  distance (PyStr s) (PyStr "") (PyStr "both") cost
  = inr (RetBoth (PyInt (c0 + Z.of_nat (String.length s) * cd))
           (replicate (String.length s) DEL))
  ∧ distance (PyStr "") (PyStr s) (PyStr "both") cost
    = inr (RetBoth (PyInt (c0 + Z.of_nat (String.length s) * ci))
             (replicate (String.length s) INS)).
Proof.
  intros Hcost. rewrite !(distance_mode_both _ _ _ _ _ _ _ _ Hcost).
  unfold last_cost, last_cell. rewrite !_list_edits_spec.
  change (rev (chars "")) with (@nil ascii).
  rewrite D_column, D_row, moves_back_column, moves_back_row.
  by rewrite !rev_replicate, !length_rev, !chars_length.
Qed.

Lemma distance_with_empty_string_witness :
  cost_is (<[INS := PyInt 0]> default_cost) 0 0 1 1 0
  ∧ distance (PyStr "abc") (PyStr "") (PyStr "both") (<[INS := PyInt 0]> default_cost)
    = inr (RetBoth (PyInt (0 + Z.of_nat (String.length "abc") * 1))
             (replicate (String.length "abc") DEL))
  ∧ distance (PyStr "") (PyStr "abc") (PyStr "both") (<[INS := PyInt 0]> default_cost)
    = inr (RetBoth (PyInt (0 + Z.of_nat (String.length "abc") * 0))
             (replicate (String.length "abc") INS)).
Proof.
  assert (cost_is (<[INS := PyInt 0]> default_cost) 0 0 1 1 0) as H
    by (repeat split; reflexivity).
  split; [exact H|].
  exact (distance_with_empty_string "abc" (<[INS := PyInt 0]> default_cost)
           0 0 1 1 0 H).
Defined.

(** ** Bounds on the distance *)

Lemma D_upper_bound cm ci cd cs c0 s t :
  D cm ci cd cs c0 s t ≤ c0 + Z.of_nat (length s) * cd + Z.of_nat (length t) * ci.
Proof.
  induction s as [|a s IH].
  - rewrite D_row. simpl. lia.
  - pose proof (D_del_le cm ci cd cs c0 a s t). simpl length. lia.
Qed.

(** X10. With integer costs of any sign the distance is never more than
    the initial cost plus the cost of deleting every character of
    [string1] and inserting every character of [string2]. *)
Theorem distance_at_most_rewrite_all (s t : string) (cost : CostDict)
    (cm ci cd cs c0 : Z) :
  cost_is cost cm ci cd cs c0 →
  ∃ d : Z,
    distance (PyStr s) (PyStr t) (PyStr "distance") cost = inr (RetNum (PyInt d))
    ∧ d ≤ c0 + Z.of_nat (String.length s) * cd + Z.of_nat (String.length t) * ci.
Proof.
  intros Hcost. exists (last_cost cm ci cd cs c0 s t).
  split; [by apply distance_mode_distance|].
  unfold last_cost.
  pose proof (D_upper_bound cm ci cd cs c0 (rev (chars s)) (rev (chars t))) as H.
  by rewrite !length_rev, !chars_length in H.
Qed.

Lemma distance_at_most_rewrite_all_witness :
  cost_is default_cost 0 1 1 1 0
  ∧ ∃ d : Z,
      distance (PyStr "foo") (PyStr "bar") (PyStr "distance") default_cost
      = inr (RetNum (PyInt d))
      ∧ d ≤ 0 + Z.of_nat (String.length "foo") * 1 + Z.of_nat (String.length "bar") * 1.
Proof.
  split; [exact default_cost_is|].
  exact (distance_at_most_rewrite_all "foo" "bar" default_cost 0 1 1 1 0
           default_cost_is).
Defined.

Lemma cost_of_default_le m : 0 ≤ cost_of default_cost m ≤ 1.
Proof. destruct m; vm_compute; split; discriminate. Qed.

Lemma edits_cost_default_bounds es :
  0 ≤ edits_cost default_cost es ≤ Z.of_nat (length es).
Proof.
  induction es as [|m es IH]; [simpl; lia|].
  rewrite edits_cost_cons. pose proof (cost_of_default_le m). simpl length. lia.
Qed.

Lemma script_default_cost_length s t es :
  script s t es →
  Z.abs (Z.of_nat (length s) - Z.of_nat (length t)) ≤ edits_cost default_cost es.
Proof.
  induction 1; rewrite ?edits_cost_cons; simpl length.
  - simpl. lia.
  - change (cost_of default_cost MATCH) with 0. lia.
  - change (cost_of default_cost SUBST) with 1. lia.
  - change (cost_of default_cost INS) with 1. lia.
  - change (cost_of default_cost DEL) with 1. lia.
Qed.

(** X11. Under the default costs the distance, and the number [sdist]
    returns, lies between the difference of the two lengths and the
    larger of the two lengths. *)
Theorem default_distance_bounds (s t : string) :
  ∃ d : Z,
    distance (PyStr s) (PyStr t) (PyStr "distance") default_cost
    = inr (RetNum (PyInt d))
    ∧ sdist s t = inr d
    ∧ Z.abs (Z.of_nat (String.length s) - Z.of_nat (String.length t)) ≤ d
    ∧ d ≤ Z.of_nat (String.length s `max` String.length t).
Proof.
  exists (last_cost 0 1 1 1 0 s t).
  split; [apply distance_mode_distance, default_cost_is|].
  split; [apply sdist_spec|]. split.
  - destruct (last_cost_attained default_cost 0 1 1 1 0 s t default_cost_is)
      as (es & Hes & Hc).
    apply edit_script_iff, script_default_cost_length in Hes.
    rewrite !chars_length in Hes. lia.
  - pose proof (last_cost_lower_bound default_cost 0 1 1 1 0 s t
                  (moves_of (edit_path_ops (chars s) (chars t))) default_cost_is) as H.
    pose proof (edits_cost_default_bounds
                  (moves_of (edit_path_ops (chars s) (chars t)))) as Hb.
    rewrite moves_of_length, edit_path_ops_length, !chars_length in Hb.
    rewrite Z.add_0_l in H. etrans; [apply H|]; [|lia].
    apply edit_script_iff, edit_path_ops_script.
Qed.

(** ** Distance zero *)

Lemma script_default_cost_zero s t es :
  script s t es → edits_cost default_cost es = 0 → s = t.
Proof.
  induction 1 as [|a s t es _ IH|a b s t es _ _ _|b s t es _ _|a s t es _ _];
    rewrite ?edits_cost_cons; intros Hc; [done|..];
    pose proof (edits_cost_default_bounds es) as Hb.
  - change (cost_of default_cost MATCH) with 0 in Hc. f_equal. apply IH. lia.
  - change (cost_of default_cost SUBST) with 1 in Hc. lia.
  - change (cost_of default_cost INS) with 1 in Hc. lia.
  - change (cost_of default_cost DEL) with 1 in Hc. lia.
Qed.

Lemma chars_inj s t : chars s = chars t → s = t.
Proof.
  intros H. rewrite <- (String.string_of_list_ascii_of_string s),
    <- (String.string_of_list_ascii_of_string t). unfold chars in H. by rewrite H.
Qed.

Lemma last_cost_zero_iff s t : last_cost 0 1 1 1 0 s t = 0 ↔ s = t.
Proof.
  split.
  - intros H0.
    destruct (last_cost_attained default_cost 0 1 1 1 0 s t default_cost_is)
      as (es & Hes & Hc).
    apply chars_inj, (script_default_cost_zero _ _ es); [by apply edit_script_iff | lia].
  - intros ->. apply last_cost_same_string.
Qed.

(** X12. Under the default costs the distance is 0 exactly when the two
    strings are equal. *)
Theorem default_distance_zero_iff_equal (s t : string) :
  distance (PyStr s) (PyStr t) (PyStr "distance") default_cost
  = inr (RetNum (PyInt 0))
  ↔ s = t.
Proof.
  rewrite (distance_mode_distance _ _ _ _ _ _ _ _ default_cost_is).
  rewrite <- last_cost_zero_iff. split; [by intros [= ->] | by intros ->].
Qed.

(** ** An initial cost that is not a number *)

Lemma py_add_not_real v z : is_real v = false → py_add v (PyInt z) = inl TypeError.
Proof. by destruct v. Qed.

Lemma _edit_path_initial_not_real s1 s2 cost cm ci cd cs v :
  cost !! MATCH = Some (PyInt cm) → cost !! INS = Some (PyInt ci) →
  cost !! DEL = Some (PyInt cd) → cost !! SUBST = Some (PyInt cs) →
  cost !! INITIAL = Some v → is_real v = false →
  s1 ≠ "" ∨ s2 ≠ "" →
  _edit_path s1 s2 cost = inl TypeError.
Proof.
  intros Hm Hi Hd Hs H0 Hv Hne. unfold _edit_path, _edit_path_matrix.
  rewrite (getitem_Some _ _ _ Hm), (getitem_Some _ _ _ Hi),
    (getitem_Some _ _ _ Hd), (getitem_Some _ _ _ Hs), (getitem_Some _ _ _ H0).
  cbn [bind]. destruct s1 as [|a s1].
  - destruct s2 as [|b s2]; [by destruct Hne|].
    cbn [String.length range Nat.sub seq for_in bind ret].
    unfold ins_body at 1. rewrite (getitem_Some _ _ (mkTraceback v INITIAL None))
      by apply lookup_insert_eq.
    cbn [bind tb_cost]. by rewrite py_add_not_real.
  - cbn [String.length range Nat.sub seq for_in bind].
    unfold del_body at 1. rewrite (getitem_Some _ _ (mkTraceback v INITIAL None))
      by apply lookup_insert_eq.
    cbn [bind tb_cost]. by rewrite py_add_not_real.
Qed.

(** X13. [distance] does not check the entry for [INITIAL]. When the other
    four costs are integers and the initial cost is not a number, a call on
    two empty strings returns that value as the distance, and a call on any
    other pair of strings raises [TypeError] at the first addition. *)
Theorem initial_cost_not_a_number (s1 s2 : string) (output : PyVal)
    (cost : CostDict) (cm ci cd cs : Z) (v : PyVal) :
  valid_output output = true →
  cost !! MATCH = Some (PyInt cm) → cost !! INS = Some (PyInt ci) →
  cost !! DEL = Some (PyInt cd) → cost !! SUBST = Some (PyInt cs) →
  cost !! INITIAL = Some v → is_real v = false →
  distance (PyStr "") (PyStr "") (PyStr "both") cost = inr (RetBoth v [])
  ∧ (s1 ≠ "" ∨ s2 ≠ "" →
     distance (PyStr s1) (PyStr s2) output cost = inl TypeError).
Proof.
  intros Hout Hm Hi Hd Hs H0 Hv.
  assert (cost_not_real cost = inr false) as Hc.
  { unfold cost_not_real.
    by rewrite (getitem_Some _ _ _ Hm), (getitem_Some _ _ _ Hi),
      (getitem_Some _ _ _ Hd), (getitem_Some _ _ _ Hs). }
  split.
  - unfold distance. cbn [py_eq negb andb]. rewrite Hc. cbn [bind].
    unfold _edit_path, _edit_path_matrix.
    rewrite (getitem_Some _ _ _ Hm), (getitem_Some _ _ _ Hi),
      (getitem_Some _ _ _ Hd), (getitem_Some _ _ _ Hs), (getitem_Some _ _ _ H0).
    done.
  - intros Hne. unfold distance. rewrite valid_output_cond, Hout. cbn [negb].
    rewrite Hc. cbn [bind].
    by rewrite (_edit_path_initial_not_real _ _ _ _ _ _ _ _ Hm Hi Hd Hs H0 Hv Hne).
Qed.

Lemma initial_cost_not_a_number_witness :
  valid_output (PyStr "distance") = true
  ∧ cost_initial_none !! INITIAL = Some PyNone
  ∧ distance (PyStr "") (PyStr "") (PyStr "both") cost_initial_none
    = inr (RetBoth PyNone [])
  ∧ distance (PyStr "foo") (PyStr "fou") (PyStr "distance") cost_initial_none
    = inl TypeError.
Proof.
  pose proof (initial_cost_not_a_number "foo" "fou" (PyStr "distance")
                cost_initial_none 0 1 1 1 PyNone valid_output_distance
                eq_refl eq_refl eq_refl eq_refl eq_refl eq_refl) as [H1 H2].
  split; [exact valid_output_distance|]. split; [reflexivity|].
  split; [exact H1|]. apply H2. left. discriminate.
Defined.

(** ** How many edits are returned *)

Lemma moves_back_length cm ci cd cs c0 s t :
  (length s `max` length t ≤ length (moves_back (cellT cm ci cd cs c0 s t))
   ∧ length (moves_back (cellT cm ci cd cs c0 s t)) ≤ length s + length t)%nat.
Proof.
  revert t. induction s as [|a s IHs]; intros t.
  - rewrite moves_back_row, length_replicate. simpl. lia.
  - induction t as [|b t IHt].
    + rewrite moves_back_column, length_replicate. simpl. lia.
    + rewrite cellT_cons_cons.
      destruct (bestT_cases (subst_of cm cs a b) (diag_move (subst_of cm cs a b))
                  (cellT cm ci cd cs c0 s t) ci INS (cellT cm ci cd cs c0 (a :: s) t)
                  cd DEL (cellT cm ci cd cs c0 s (b :: t)))
        as [Hr|[Hr|Hr]];
        rewrite (recorded_moves_back _ _ _ _ Hr); simpl length.
      * specialize (IHs t). lia.
      * simpl length in IHt. lia.
      * specialize (IHs (b :: t)). simpl length in IHs. lia.
Qed.

(** X14. With integer costs of any kind, the list of edits has at least as
    many entries as the longer string has characters and at most as many as
    the two strings have together. *)
Theorem edits_length_bounds (s t : string) (cost : CostDict)
    (cm ci cd cs c0 : Z) :
  cost_is cost cm ci cd cs c0 →
  ∃ es : list Move,
    distance (PyStr s) (PyStr t) (PyStr "edits") cost = inr (RetEdits es)
    ∧ (String.length s `max` String.length t ≤ length es)%nat
    ∧ (length es ≤ String.length s + String.length t)%nat.
Proof.
  intros Hcost. exists (_list_edits (last_cell cm ci cd cs c0 s t)).
  split; [by apply distance_mode_edits|].
  rewrite _list_edits_spec, length_rev. unfold last_cell.
  pose proof (moves_back_length cm ci cd cs c0 (rev (chars s)) (rev (chars t))) as H.
  by rewrite !length_rev, !chars_length in H.
Qed.

Lemma edits_length_bounds_witness :
  cost_is default_cost 0 1 1 1 0
  ∧ ∃ es : list Move,
      distance (PyStr "foolish") (PyStr "fools") (PyStr "edits") default_cost
      = inr (RetEdits es)
      ∧ (String.length "foolish" `max` String.length "fools" ≤ length es)%nat
      ∧ (length es ≤ String.length "foolish" + String.length "fools")%nat.
Proof.
  split; [exact default_cost_is|].
  exact (edits_length_bounds "foolish" "fools" default_cost 0 1 1 1 0 default_cost_is).
Defined.

(** ** The triangle inequality *)

Section compose.
Variable cost : CostDict.
Hypothesis match_nonneg : 0 ≤ cost_of cost MATCH.
Hypothesis ins_nonneg : 0 ≤ cost_of cost INS.
Hypothesis del_nonneg : 0 ≤ cost_of cost DEL.
Hypothesis match_le_two_subst : cost_of cost MATCH ≤ 2 * cost_of cost SUBST.

(** A script from [s] to [t] followed by a script from [t] to [u] can be
    merged into one from [s] to [u] that costs no more than the two. *)
Lemma script_compose e1 e2 s t u :
  script s t e1 → script t u e2 →
  ∃ e3, script s u e3
        ∧ edits_cost cost e3 ≤ edits_cost cost e1 + edits_cost cost e2.
Proof.
  remember (length e1 + length e2)%nat as n eqn:Hn.
  revert e1 e2 s t u Hn. induction n as [n IH] using lt_wf_ind.
  intros e1 e2 s t u Hn H1 H2.
  assert (∀ e1' e2' s' t' u',
            (length e1' + length e2' < n)%nat →
            script s' t' e1' → script t' u' e2' →
            ∃ e3, script s' u' e3
                  ∧ edits_cost cost e3 ≤ edits_cost cost e1' + edits_cost cost e2')
    as IH' by (intros; eapply IH; eauto).
  clear IH.
  inversion H1 as [|a s' t' e1' H1'|a b s' t' e1' Hab H1'|b s' t' e1' H1'
                   |a s' t' e1' H1']; subst.
  - exists e2. split; [done | simpl; lia].
  - inversion H2 as [|a' t'' u' e2' H2'|a' c t'' u' e2' Hac H2'|c t'' u' e2' H2'
                     |a' t'' u' e2' H2']; subst.
    + destruct (IH' e1' e2' _ _ _ ltac:(simpl; lia) H1' H2') as (e3 & Hs & Hc).
      exists (MATCH :: e3). split; [by constructor | rewrite !edits_cost_cons; lia].
    + destruct (IH' e1' e2' _ _ _ ltac:(simpl; lia) H1' H2') as (e3 & Hs & Hc).
      exists (SUBST :: e3). split; [by constructor | rewrite !edits_cost_cons; lia].
    + destruct (IH' (MATCH :: e1') e2' _ _ _ ltac:(simpl; lia) H1 H2')
        as (e3 & Hs & Hc).
      exists (INS :: e3). split; [by constructor | rewrite !edits_cost_cons in *; lia].
    + destruct (IH' e1' e2' _ _ _ ltac:(simpl; lia) H1' H2') as (e3 & Hs & Hc).
      exists (DEL :: e3). split; [by constructor | rewrite !edits_cost_cons; lia].
  - inversion H2 as [|a' t'' u' e2' H2'|a' c t'' u' e2' Hbc H2'|c t'' u' e2' H2'
                     |a' t'' u' e2' H2']; subst.
    + destruct (IH' e1' e2' _ _ _ ltac:(simpl; lia) H1' H2') as (e3 & Hs & Hc).
      exists (SUBST :: e3). split; [by constructor | rewrite !edits_cost_cons; lia].
    + destruct (IH' e1' e2' _ _ _ ltac:(simpl; lia) H1' H2') as (e3 & Hs & Hc).
      destruct (decide (a = c)) as [->|Hne].
      * exists (MATCH :: e3). split; [by constructor | rewrite !edits_cost_cons; lia].
      * exists (SUBST :: e3). split; [by constructor | rewrite !edits_cost_cons; lia].
    + destruct (IH' (SUBST :: e1') e2' _ _ _ ltac:(simpl; lia) H1 H2')
        as (e3 & Hs & Hc).
      exists (INS :: e3). split; [by constructor | rewrite !edits_cost_cons in *; lia].
    + destruct (IH' e1' e2' _ _ _ ltac:(simpl; lia) H1' H2') as (e3 & Hs & Hc).
      exists (DEL :: e3). split; [by constructor | rewrite !edits_cost_cons; lia].
  - inversion H2 as [|a' t'' u' e2' H2'|a' c t'' u' e2' Hbc H2'|c t'' u' e2' H2'
                     |a' t'' u' e2' H2']; subst.
    + destruct (IH' e1' e2' _ _ _ ltac:(simpl; lia) H1' H2') as (e3 & Hs & Hc).
      exists (INS :: e3). split; [by constructor | rewrite !edits_cost_cons; lia].
    + destruct (IH' e1' e2' _ _ _ ltac:(simpl; lia) H1' H2') as (e3 & Hs & Hc).
      exists (INS :: e3). split; [by constructor | rewrite !edits_cost_cons; lia].
    + destruct (IH' (INS :: e1') e2' _ _ _ ltac:(simpl; lia) H1 H2')
        as (e3 & Hs & Hc).
      exists (INS :: e3). split; [by constructor | rewrite !edits_cost_cons in *; lia].
    + destruct (IH' e1' e2' _ _ _ ltac:(simpl; lia) H1' H2') as (e3 & Hs & Hc).
      exists e3. split; [done | rewrite !edits_cost_cons; lia].
  - destruct (IH' e1' e2 _ _ _ ltac:(simpl; lia) H1' H2) as (e3 & Hs & Hc).
    exists (DEL :: e3). split; [by constructor | rewrite !edits_cost_cons; lia].
Qed.
End compose.

Lemma D_triangle cost cm ci cd cs c0 s t u :
  cost_is cost cm ci cd cs c0 →
  0 ≤ cm → 0 ≤ ci → 0 ≤ cd → cm ≤ 2 * cs →
  D cm ci cd cs c0 s u + c0 ≤ D cm ci cd cs c0 s t + D cm ci cd cs c0 t u.
Proof.
  intros Hcost Hm Hi Hd Hms.
  destruct (D_attained cm ci cd cs c0 cost Hcost s t) as (e1 & H1 & Hc1).
  destruct (D_attained cm ci cd cs c0 cost Hcost t u) as (e2 & H2 & Hc2).
  assert (0 ≤ cost_of cost MATCH) as Am
    by (by rewrite (cost_of_match _ _ _ _ _ _ Hcost)).
  assert (0 ≤ cost_of cost INS) as Ai
    by (by rewrite (cost_of_ins _ _ _ _ _ _ Hcost)).
  assert (0 ≤ cost_of cost DEL) as Ad
    by (by rewrite (cost_of_del _ _ _ _ _ _ Hcost)).
  assert (cost_of cost MATCH ≤ 2 * cost_of cost SUBST) as Ams
    by (by rewrite (cost_of_match _ _ _ _ _ _ Hcost),
          (cost_of_subst _ _ _ _ _ _ Hcost)).
  destruct (script_compose cost Am Ai Ad Ams e1 e2 s t u H1 H2) as (e3 & H3 & Hc3).
  pose proof (D_lower_bound cm ci cd cs c0 cost Hcost s u e3 H3). lia.
Qed.

(** X15. With integer costs where matching, inserting and deleting do not
    cost less than 0 and matching costs at most twice a substitution, going
    through a third string is never cheaper: the distance from [s] to [u],
    plus the initial cost, is at most the distance from [s] to [t] plus the
    distance from [t] to [u]. With an initial cost of 0 this is the
    triangle inequality. *)
Theorem distance_triangle (s t u : string) (cost : CostDict)
    (cm ci cd cs c0 : Z) :
  cost_is cost cm ci cd cs c0 →
  0 ≤ cm → 0 ≤ ci → 0 ≤ cd → cm ≤ 2 * cs →
  ∃ dsu dst dtu : Z,
    distance (PyStr s) (PyStr u) (PyStr "distance") cost = inr (RetNum (PyInt dsu))
    ∧ distance (PyStr s) (PyStr t) (PyStr "distance") cost = inr (RetNum (PyInt dst))
    ∧ distance (PyStr t) (PyStr u) (PyStr "distance") cost = inr (RetNum (PyInt dtu))
    ∧ dsu + c0 ≤ dst + dtu.
Proof.
  intros Hcost Hm Hi Hd Hms.
  exists (last_cost cm ci cd cs c0 s u), (last_cost cm ci cd cs c0 s t),
    (last_cost cm ci cd cs c0 t u).
  rewrite !(distance_mode_distance _ _ _ _ _ _ _ _ Hcost).
  repeat split. by apply (D_triangle cost).
Qed.

Lemma distance_triangle_witness :
  cost_is default_cost 0 1 1 1 0 ∧ 0 ≤ 1 ∧ 0 ≤ 2 * 1
  ∧ ∃ dsu dst dtu : Z,
      distance (PyStr "foo") (PyStr "fools") (PyStr "distance") default_cost
      = inr (RetNum (PyInt dsu))
      ∧ distance (PyStr "foo") (PyStr "foot") (PyStr "distance") default_cost
        = inr (RetNum (PyInt dst))
      ∧ distance (PyStr "foot") (PyStr "fools") (PyStr "distance") default_cost
        = inr (RetNum (PyInt dtu))
      ∧ dsu + 0 ≤ dst + dtu.
Proof.
  assert (0 ≤ 0) as H00 by lia. assert (0 ≤ 1) as H01 by lia.
  assert (0 ≤ 2 * 1) as H02 by lia.
  split; [exact default_cost_is|]. split; [exact H01|]. split; [exact H02|].
  exact (distance_triangle "foo" "foot" "fools" default_cost 0 1 1 1 0
           default_cost_is H00 H01 H01 H02).
Defined.

(** ** Reversed strings, common prefixes and suffixes *)

Lemma D_rev_le cost cm ci cd cs c0 s t :
  cost_is cost cm ci cd cs c0 →
  D cm ci cd cs c0 (rev s) (rev t) ≤ D cm ci cd cs c0 s t.
Proof.
  intros Hcost.
  destruct (D_attained cm ci cd cs c0 cost Hcost s t) as (es & Hes & Hc).
  pose proof (D_lower_bound cm ci cd cs c0 cost Hcost _ _ _ (script_rev _ _ _ Hes)) as H.
  rewrite edits_cost_rev in H. lia.
Qed.

Lemma D_rev cost cm ci cd cs c0 s t :
  cost_is cost cm ci cd cs c0 →
  D cm ci cd cs c0 (rev s) (rev t) = D cm ci cd cs c0 s t.
Proof.
  intros Hcost. apply Z.le_antisymm; [by apply (D_rev_le cost)|].
  pose proof (D_rev_le cost cm ci cd cs c0 (rev s) (rev t) Hcost) as H.
  by rewrite !rev_involutive in H.
Qed.

(** [s[::-1]] *)
Definition string_rev (s : string) : string :=
  String.string_of_list_ascii (rev (chars s)).

Lemma chars_string_rev s : chars (string_rev s) = rev (chars s).
Proof. apply String.list_ascii_of_string_of_list_ascii. Qed.

Lemma chars_app s w : chars (s +:+ w) = chars s ++ chars w.
Proof. induction s as [|a s IH]; [done|]. simpl. by rewrite <- IH. Qed.

(** X16. With integer costs of any kind, reversing both strings does not
    change the distance. *)
Theorem distance_of_reversed_strings (s t : string) (cost : CostDict)
    (cm ci cd cs c0 : Z) :
  cost_is cost cm ci cd cs c0 →
  ∃ d : Z,
    distance (PyStr s) (PyStr t) (PyStr "distance") cost = inr (RetNum (PyInt d))
    ∧ distance (PyStr (string_rev s)) (PyStr (string_rev t)) (PyStr "distance") cost
      = inr (RetNum (PyInt d)).
Proof.
  intros Hcost. exists (last_cost cm ci cd cs c0 s t).
  rewrite !(distance_mode_distance _ _ _ _ _ _ _ _ Hcost). split; [done|].
  unfold last_cost. rewrite !chars_string_rev. do 3 f_equal.
  rewrite (D_rev cost) by done. by rewrite (D_rev cost).
Qed.

Lemma distance_of_reversed_strings_witness :
  cost_is default_cost 0 1 1 1 0
  ∧ ∃ d : Z,
      distance (PyStr "foot") (PyStr "fo") (PyStr "distance") default_cost
      = inr (RetNum (PyInt d))
      ∧ distance (PyStr (string_rev "foot")) (PyStr (string_rev "fo"))
          (PyStr "distance") default_cost
        = inr (RetNum (PyInt d)).
Proof.
  split; [exact default_cost_is|].
  exact (distance_of_reversed_strings "foot" "fo" default_cost 0 1 1 1 0
           default_cost_is).
Defined.

Section common_part.
Variables ci cd cs c0 : Z.
Variable cost : CostDict.
Hypothesis Hcost : cost_is cost 0 ci cd cs c0.
Hypothesis ci_nonneg : 0 ≤ ci.
Hypothesis cd_nonneg : 0 ≤ cd.
Hypothesis cs_nonneg : 0 ≤ cs.

Lemma D_insert_one c s : D 0 ci cd cs c0 s (c :: s) ≤ c0 + ci.
Proof.
  pose proof (D_lower_bound 0 ci cd cs c0 cost Hcost s (c :: s)
                (INS :: replicate (length s) MATCH)
                (script_ins c s s _ (script_refl s))) as H.
  rewrite edits_cost_cons, edits_cost_replicate in H.
  rewrite (cost_of_ins _ _ _ _ _ _ Hcost), (cost_of_match _ _ _ _ _ _ Hcost) in H.
  lia.
Qed.

Lemma D_delete_one c s : D 0 ci cd cs c0 (c :: s) s ≤ c0 + cd.
Proof.
  pose proof (D_lower_bound 0 ci cd cs c0 cost Hcost (c :: s) s
                (DEL :: replicate (length s) MATCH)
                (script_del c s s _ (script_refl s))) as H.
  rewrite edits_cost_cons, edits_cost_replicate in H.
  rewrite (cost_of_del _ _ _ _ _ _ Hcost), (cost_of_match _ _ _ _ _ _ Hcost) in H.
  lia.
Qed.

Lemma D_common_head c s t :
  D 0 ci cd cs c0 (c :: s) (c :: t) = D 0 ci cd cs c0 s t.
Proof.
  rewrite D_cons_cons. unfold subst_of. rewrite bool_decide_eq_true_2 by done.
  pose proof (D_triangle cost 0 ci cd cs c0 s (c :: s) t Hcost) as H1.
  pose proof (D_triangle cost 0 ci cd cs c0 s (c :: t) t Hcost) as H2.
  pose proof (D_insert_one c s). pose proof (D_delete_one c t). lia.
Qed.

Lemma D_common_prefix w s t :
  D 0 ci cd cs c0 (w ++ s) (w ++ t) = D 0 ci cd cs c0 s t.
Proof. induction w as [|c w IH]; [done|]. simpl. by rewrite D_common_head. Qed.
End common_part.

(** X17. When matching is free and the other three costs are integers not
    below 0, a prefix or a suffix that the two strings have in common does
    not count: the distance between [w + s] and [w + t], and between
    [s + w] and [t + w], is the distance between [s] and [t]. *)
Theorem distance_ignores_common_affix (w s t : string) (cost : CostDict)
    (ci cd cs c0 : Z) :
  cost_is cost 0 ci cd cs c0 → 0 ≤ ci → 0 ≤ cd → 0 ≤ cs →
  ∃ d : Z,
    distance (PyStr s) (PyStr t) (PyStr "distance") cost = inr (RetNum (PyInt d))
    ∧ distance (PyStr (w +:+ s)) (PyStr (w +:+ t)) (PyStr "distance") cost
      = inr (RetNum (PyInt d))
    ∧ distance (PyStr (s +:+ w)) (PyStr (t +:+ w)) (PyStr "distance") cost
      = inr (RetNum (PyInt d)).
Proof.
  intros Hcost Hi Hd Hs. exists (last_cost 0 ci cd cs c0 s t).
  rewrite !(distance_mode_distance _ _ _ _ _ _ _ _ Hcost).
  split; [done|]. unfold last_cost. rewrite !chars_app. split; do 3 f_equal.
  - rewrite (D_rev cost) by done.
    rewrite (D_common_prefix ci cd cs c0 cost) by done.
    by rewrite <- (D_rev cost) by done.
  - rewrite !rev_app_distr. by apply (D_common_prefix ci cd cs c0 cost).
Qed.

Lemma distance_ignores_common_affix_witness :
  cost_is default_cost 0 1 1 1 0 ∧ 0 ≤ 1
  ∧ ∃ d : Z,
      distance (PyStr "ish") (PyStr "s") (PyStr "distance") default_cost
      = inr (RetNum (PyInt d))
      ∧ distance (PyStr ("fool" +:+ "ish")) (PyStr ("fool" +:+ "s"))
          (PyStr "distance") default_cost
        = inr (RetNum (PyInt d))
      ∧ distance (PyStr ("ish" +:+ "fool")) (PyStr ("s" +:+ "fool"))
          (PyStr "distance") default_cost
        = inr (RetNum (PyInt d)).
Proof.
  assert (0 ≤ 1) as H01 by lia.
  split; [exact default_cost_is|]. split; [exact H01|].
  exact (distance_ignores_common_affix "fool" "ish" "s" default_cost 1 1 1 0
           default_cost_is H01 H01 H01).
Defined.

(** ** [sdist] is a metric *)

(** X18. [sdist] returns for all strings; the number is 0 exactly for two
    equal strings, is the same in both directions, and satisfies the
    triangle inequality. *)
Theorem sdist_is_a_metric (s t u : string) :
  ∃ dst dts dsu dtu : Z,
    sdist s t = inr dst ∧ sdist t s = inr dts
    ∧ sdist s u = inr dsu ∧ sdist t u = inr dtu
    ∧ (dst = 0 ↔ s = t)
    ∧ dst = dts
    ∧ dsu ≤ dst + dtu.
Proof.
  exists (last_cost 0 1 1 1 0 s t), (last_cost 0 1 1 1 0 t s),
    (last_cost 0 1 1 1 0 s u), (last_cost 0 1 1 1 0 t u).
  rewrite !sdist_spec. repeat split.
  - apply last_cost_zero_iff.
  - apply last_cost_zero_iff.
  - unfold last_cost. apply D_swap.
  - pose proof (D_triangle default_cost 0 1 1 1 0 (rev (chars s)) (rev (chars t))
                  (rev (chars u)) default_cost_is) as H.
    unfold last_cost. lia.
Qed.

(** ** Calls on objects and [distance] on values *)

(** X19. A call whose [cost] names a dict shows the caller what [distance],
    the function of values used in the properties above, returns on what
    that dict holds under the members of [Move]: the statements run on
    objects and the function on values agree, on what is returned and on
    what is raised. *)
Theorem call_agrees_with_distance (c : Call) (h : Heap)
    (moves : CostDict) (cells : Distances) :
  h !! cost_ref c = Some (DictObj moves cells) →
  observe (distance_call c h)
  = Some (distance (arg_string1 c) (arg_string2 c)
            (default (PyStr "both") (arg_output c)) moves).
Proof. intros Hc. unfold distance_call. by rewrite (distance_run _ _ _ _ _ _ _ Hc). Qed.

Lemma call_agrees_with_distance_witness :
  heap_two_dicts !! cost_ref call_own_costs
  = Some (DictObj {[ MATCH := PyInt 0; INS := PyInt 2; DEL := PyInt 3;
                     SUBST := PyInt 5; INITIAL := PyInt 0 ]} ∅)
  ∧ observe (distance_call call_own_costs heap_two_dicts)
    = Some (distance (PyStr "foo") (PyStr "fou") (PyStr "distance")
              {[ MATCH := PyInt 0; INS := PyInt 2; DEL := PyInt 3;
                 SUBST := PyInt 5; INITIAL := PyInt 0 ]}).
Proof.
  split; [reflexivity|].
  exact (call_agrees_with_distance call_own_costs heap_two_dicts _ _ eq_refl).
Defined.
